(** * The non-transitive dice game of [script.js]

    A shallow embedding of [src/script.js] and the properties its
    specification states about it.

    - Module [JS] holds the fragment of the language and of the Node runtime
      the script relies on: numbers, [Number], [parseInt], [split],
      [toString], hexadecimal rendering of a buffer.
    - Then come the classes of the script in the order of the file:
      [Dice], [DiceParser], [FairRandomGenerator], [ProbabilityCalculator],
      [Game], and the top-level [try]/[catch].
    - The theorems follow the definitions. *)

From Stdlib Require Import ZArith QArith List String Ascii Bool Lia Permutation.
From Stdlib Require Import Strings.Byte.
From Stdlib Require Import Numbers.DecimalString Numbers.DecimalPos.
Import ListNotations.

Local Open Scope string_scope.
Local Open Scope list_scope.
Local Open Scope Z_scope.

(* ================================================================= *)
(** ** The JavaScript values and built-ins the script uses *)

Module JS.

(** A JavaScript number.  Finite values are kept as exact rationals: the
    rounding to double precision is left out, which changes nothing for the
    integers below 2^53 the game handles, nor for the questions asked here
    (is it [NaN], is it an integer, which of two is greater). *)
Inductive number : Type :=
| NaN
| Infinity (negative : bool)
| Num (q : Q).

Definition Qltb (x y : Q) : bool := Qnum x * QDen y <? Qnum y * QDen x.

(** [a > b] on numbers; every comparison with [NaN] is false. *)
Definition gt (a b : number) : bool :=
  match a, b with
  | NaN, _ | _, NaN => false
  | Infinity true, _ => false
  | Infinity false, Infinity false => false
  | Infinity false, _ => true
  | Num _, Infinity negative => negative
  | Num p, Num q => Qltb q p
  end.

(** [a < b] is [b > a]. *)
Definition lt (a b : number) : bool := gt b a.

(** [a > b] where an operand may be [undefined] ([None]): [undefined]
    converts to [NaN]. *)
Definition gt_u (a b : option number) : bool :=
  match a, b with
  | Some x, Some y => gt x y
  | _, _ => false
  end.

Definition isNaN (n : number) : bool :=
  match n with NaN => true | _ => false end.

Definition ofZ (z : Z) : number := Num (inject_Z z).

(** The number is a mathematical integer. *)
Definition isInteger (n : number) : bool :=
  match n with
  | Num q => Pos.eqb (Qden (Qred q)) 1
  | _ => false
  end.

(** [a / b] for integer operands, as the exact quotient: the rounding of
    the quotient to binary64 is not modelled, so an entry of the matrix
    stands for the fraction the script rounds. *)
Definition div (a b : Z) : number :=
  if b =? 0 then (if a =? 0 then NaN else Infinity (a <? 0))
  else if b <? 0 then Num (Qred (Qmake (- a) (Z.to_pos (- b))))
  else Num (Qred (Qmake a (Z.to_pos b))).

(** *** Characters *)

Definition code (c : ascii) : Z := Z.of_N (N_of_ascii c).

(** White space and line terminators, as far as they are ASCII (the
    non-ASCII ones of the standard are not modelled). *)
Definition isWhiteSpace (c : ascii) : bool :=
  let n := code c in ((9 <=? n) && (n <=? 13)) || (n =? 32).

(** The value of a digit character in bases up to 16. *)
Definition digitValue (c : ascii) : option Z :=
  let n := code c in
  if (48 <=? n) && (n <=? 57) then Some (n - 48)
  else if (97 <=? n) && (n <=? 102) then Some (n - 87)
  else if (65 <=? n) && (n <=? 70) then Some (n - 55)
  else None.

Fixpoint dropWhile {A} (p : A -> bool) (l : list A) : list A :=
  match l with
  | x :: l' => if p x then dropWhile p l' else l
  | [] => []
  end.

Definition trimStart (cs : list ascii) : list ascii := dropWhile isWhiteSpace cs.

Definition trim (cs : list ascii) : list ascii :=
  rev (dropWhile isWhiteSpace (rev (trimStart cs))).

(** The longest prefix of [cs] made of digits of base [base]: its value
    (continuing from [acc]), its length (continuing from [len]) and what
    follows it. *)
Fixpoint digits (base : Z) (cs : list ascii) (acc : Z) (len : nat)
  : Z * nat * list ascii :=
  match cs with
  | c :: cs' =>
      match digitValue c with
      | Some d => if d <? base then digits base cs' (acc * base + d) (S len)
                  else (acc, len, cs)
      | None => (acc, len, cs)
      end
  | [] => (acc, len, [])
  end.

Definition ascii_list_eqb (a b : list ascii) : bool :=
  String.eqb (string_of_list_ascii a) (string_of_list_ascii b).

(** *** [Number(string)] *)

(** An optional exponent part [e], [e+] or [e-] followed by digits, then the
    end of the text. *)
Definition exponentPart (cs : list ascii) : option Z :=
  match cs with
  | [] => Some 0
  | c :: r =>
      if (code c =? 101) || (code c =? 69) then
        let '(negative, r') :=
          match r with
          | s :: r' => if code s =? 45 then (true, r')
                       else if code s =? 43 then (false, r') else (false, r)
          | [] => (false, r)
          end in
        match digits 10 r' 0 0 with
        | (_, O, _) => None
        | (e, _, []) => Some (if negative then - e else e)
        | _ => None
        end
      else None
  end.

(** An unsigned decimal literal: digits, an optional fraction, an optional
    exponent; at least one digit before or after the point. *)
Definition decimalLiteral (cs : list ascii) : option Q :=
  let '(i, ni, r1) := digits 10 cs 0 0 in
  let '(m, nf, r2) :=
    match r1 with
    | c :: r => if code c =? 46 then digits 10 r i 0 else (i, O, r1)
    | [] => (i, O, r1)
    end in
  match (ni + nf)%nat with
  | O => None
  | _ => match exponentPart r2 with
         | Some e => Some (Qred (inject_Z m * Qpower (inject_Z 10) (e - Z.of_nat nf)))
         | None => None
         end
  end.

(** A literal in base 16, 8 or 2 after its [0x], [0o] or [0b] prefix. *)
Definition nonDecimalLiteral (cs : list ascii) : option Q :=
  match cs with
  | z :: p :: r =>
      if code z =? 48 then
        let base :=
          if (code p =? 120) || (code p =? 88) then Some 16
          else if (code p =? 111) || (code p =? 79) then Some 8
          else if (code p =? 98) || (code p =? 66) then Some 2
          else None in
        match base with
        | Some b => match digits b r 0 0 with
                    | (_, O, _) => None
                    | (v, _, []) => Some (inject_Z v)
                    | _ => None
                    end
        | None => None
        end
      else None
  | _ => None
  end.

Definition unsignedLiteral (negative : bool) (cs : list ascii) : number :=
  if ascii_list_eqb cs (list_ascii_of_string "Infinity") then Infinity negative
  else match decimalLiteral cs with
       | Some q => Num (if negative then Qred (- q) else q)
       | None => NaN
       end.

(** [Number(s)]: the text is trimmed; the empty text is [0]; a literal in
    base 16, 8 or 2 takes no sign; anything that is not a numeric literal
    is [NaN].  The value is the exact one of the literal: the rounding to
    binary64 is not modelled, so the result is the script's where the
    literal is representable (every integer up to [2^53] in size is). *)
Definition Number (s : string) : number :=
  let cs := trim (list_ascii_of_string s) in
  match cs with
  | [] => Num 0
  | c :: r =>
      match nonDecimalLiteral cs with
      | Some q => Num q
      | None =>
          if code c =? 45 then unsignedLiteral true r
          else if code c =? 43 then unsignedLiteral false r
          else unsignedLiteral false cs
      end
  end.

(** *** [parseInt(string, 10)] *)

(** Leading white space is skipped, a sign is read, then the longest run of
    decimal digits; what follows the digits is ignored.  [None] is [NaN].
    (A negative zero is not told apart from zero: the script only compares
    the result and indexes with it.) *)
Definition parseInt (s : string) : option Z :=
  let cs := trimStart (list_ascii_of_string s) in
  let '(negative, r) :=
    match cs with
    | c :: r => if code c =? 45 then (true, r)
                else if code c =? 43 then (false, r) else (false, cs)
    | [] => (false, cs)
    end in
  match digits 10 r 0 0 with
  | (_, O, _) => None
  | (v, _, _) => Some (if negative then - v else v)
  end.

(** *** [String.prototype.split] with a one-character separator *)

Fixpoint splitFrom (sep : ascii) (cs : list ascii) (cur : list ascii)
  : list string :=
  match cs with
  | [] => [string_of_list_ascii (rev cur)]
  | c :: r =>
      if Ascii.eqb c sep then string_of_list_ascii (rev cur) :: splitFrom sep r []
      else splitFrom sep r (c :: cur)
  end.

Definition split (s : string) (sep : ascii) : list string :=
  splitFrom sep (list_ascii_of_string s) [].

(** *** [toString] of an integer: its decimal digits, with a minus sign for
    a negative one (exact below 10^21, which covers every range here). *)
Definition toString (z : Z) : string := NilZero.string_of_int (Z.to_int z).

(** *** [Buffer.prototype.toString("hex")] *)

Definition hexDigit (d : N) : ascii :=
  ascii_of_N (if (d <? 10)%N then d + 48 else d + 87)%N.

Definition hexByte (b : byte) : list ascii :=
  let n := Byte.to_N b in [hexDigit (n / 16)%N; hexDigit (n mod 16)%N].

Definition hex (bs : list byte) : string :=
  string_of_list_ascii (flat_map hexByte bs).

(** The errors the script can meet. *)
Inductive error : Type :=
| Error (message : string)
| TypeError (message : string)
| ReferenceError (message : string)
| RangeError (message : string).

End JS.

(* ================================================================= *)
(** ** [class Dice] *)

Record Dice : Type := { faces : list JS.number }.

(** [a.length] *)
Definition len {A} (a : list A) : Z := Z.of_nat (List.length a).

(** [a[i]]: [None] is [undefined]. *)
Definition at_ {A} (a : list A) (i : Z) : option A :=
  if i <? 0 then None else nth_error a (Z.to_nat i).

(* ================================================================= *)
(** ** [class DiceParser] *)

Module DiceParser.

Definition tooFew : string :=
  "You must provide at least three dice configurations. Example: 2,2,4,4,9,9 6,8,1,1,8,6 7,5,3,7,5,3".

Definition invalidAt (index : Z) : string :=
  ("Invalid dice configuration at argument " ++ JS.toString (index + 1)
   ++ ": Only integers are allowed.")%string.

(** The callback of [args.map], l.22-32: [faces] is
    [arg.split(",").map(Number)], refused when [faces.some(isNaN)]. *)
Definition parseArg (arg : string) (index : Z) : JS.error + Dice :=
  let faces := map JS.Number (JS.split arg ",") in
  if existsb JS.isNaN faces then inl (JS.Error (invalidAt index))
  else inr {| faces := faces |}.

(** [args.map(...)] from position [index] on: the first argument that throws
    ends the whole call. *)
Fixpoint mapArgs (args : list string) (index : Z) : JS.error + list Dice :=
  match args with
  | [] => inr []
  | arg :: rest =>
      match parseArg arg index with
      | inl e => inl e
      | inr d => match mapArgs rest (index + 1) with
                 | inl e => inl e
                 | inr ds => inr (d :: ds)
                 end
      end
  end.

(** [DiceParser.parseDice(args)], l.15-33. *)
Definition parseDice (args : list string) : JS.error + list Dice :=
  if len args <? 3 then inl (JS.Error tooFew) else mapArgs args 0.

End DiceParser.

(* ================================================================= *)
(** ** [class ProbabilityCalculator] *)

Module ProbabilityCalculator.

(** The two nested [for ... of] loops of l.86-90, [wins] threaded through. *)
Definition countWins (faces1 faces2 : list JS.number) : Z :=
  fold_left
    (fun wins face1 =>
       fold_left (fun wins face2 => if JS.gt face1 face2 then wins + 1 else wins)
                 faces2 wins)
    faces1 0.

(** [calculateProbability(dice1, dice2)], l.84-92. *)
Definition calculateProbability (dice1 dice2 : Dice) : JS.number :=
  let wins := countWins (faces dice1) (faces dice2) in
  JS.div wins (len (faces dice1) * len (faces dice2)).

(** The indices [0 .. n-1] a counting [for] loop visits. *)
Definition indices (n : nat) : list nat := seq 0 n.

(** [calculate(dice)], l.69-82: row [i] is filled for [j] from [0] to
    [dice.length - 1], rows are filled for [i] from [0] to
    [dice.length - 1]. *)
Definition calculate (dice : list Dice) : list (list JS.number) :=
  map (fun i =>
         map (fun j =>
                if Nat.eqb i j then JS.Num (1 # 2)
                else match nth_error dice i, nth_error dice j with
                     | Some di, Some dj => calculateProbability di dj
                     | _, _ => JS.NaN
                     end)
             (indices (List.length dice)))
      (indices (List.length dice)).

End ProbabilityCalculator.

(* ================================================================= *)
(** ** What the game prints and what it waits for *)

(** One constructor per [console.log] of [class Game] and of
    [ProbabilityTable.display], holding the values its text interpolates. *)
Inductive Msg : Type :=
| Welcome                                  (* l.148 *)
| TypeHelp                                 (* l.149 *)
| LetsDetermine                            (* l.114 *)
| ISelected (top : Z) (hmac : string)      (* l.116, l.203, l.250: range 0..top *)
| ThanksForPlaying                         (* l.124, l.167, l.220, l.267 *)
| InvalidGuess                             (* l.130 *)
| MySelection (n : Z) (key : string)       (* l.134 *)
| YouGuessed                               (* l.139 *)
| IMakeFirstMove                           (* l.142 *)
| ProbabilityTable (probabilities : list (list JS.number))  (* l.97-103 *)
| InvalidChoice                            (* l.183 *)
| YouChose (fs : list JS.number)           (* l.187 *)
| IChoose (fs : list JS.number)            (* l.194 *)
| TimeForMyThrow                           (* l.198 *)
| InvalidNumber                            (* l.230, l.277 *)
| MyNumberIs (n : Z) (key : string)        (* l.234, l.281 *)
| TheResultIs (a b result modulus : Z)     (* l.240, l.286 *)
| MyThrowIs (roll : option JS.number)      (* l.245 *)
| TimeForYourThrow                         (* l.247 *)
| YourThrowIs (roll : option JS.number)    (* l.291 *)
| YouWin (userRoll computerRoll : option JS.number)   (* l.294 *)
| IWin (computerRoll userRoll : option JS.number)     (* l.296 *)
| Tie.                                     (* l.298 *)

(** The message announces the outcome of a round. *)
Definition isOutcome (m : Msg) : bool :=
  match m with
  | YouWin _ _ | IWin _ _ | Tie => true
  | _ => false
  end.

(** The places where [play] and [determineFirstMove] wait for a line of
    input, each with the variables that are live there. *)
Inductive Pending : Type :=
| AtFirstMove (randomNumber : Z) (hmac : string)                 (* l.118 *)
| AtChooseDice (userGoesFirst : bool)                            (* l.159 *)
| AtHostThrow (userGoesFirst : bool) (userDiceIndex computerDiceIndex : Z)
              (computerThrow : Z) (computerHMAC : string)        (* l.209 *)
| AtPlayerThrow (userGoesFirst : bool) (userDiceIndex computerDiceIndex : Z)
                (computerRoll : option JS.number)
                (userThrow : Z) (userHMAC : string).             (* l.256 *)

(* ================================================================= *)
(** ** The world the script runs in *)

(** [secretKey] is the field of the one [FairRandomGenerator] of the game
    ([None] is [null]); [bytesFeed] and [intFeed] are what the next calls of
    [crypto.randomBytes] and [crypto.randomInt] return, in call order;
    [console] is what has been printed so far. *)
Record World : Type := {
  secretKey : option (list byte);
  bytesFeed : list (list byte);
  intFeed : list Z;
  console : list Msg
}.

(** How a piece of the script ends: with a value, with an exception, with
    [process.exit], or (an artefact of finite feeds) with no random value
    left to hand out. *)
Inductive Result (A : Type) : Type :=
| Val (a : A)
| Throw (e : JS.error)
| Exit (code : Z)
| Starved.
Arguments Val {A} a.
Arguments Throw {A} e.
Arguments Exit {A} code.
Arguments Starved {A}.

Definition M (A : Type) : Type := World -> Result A * World.

Definition ret {A} (a : A) : M A := fun w => (Val a, w).

Definition bind {A B} (m : M A) (k : A -> M B) : M B :=
  fun w =>
    match m w with
    | (Val a, w') => k a w'
    | (Throw e, w') => (Throw e, w')
    | (Exit c, w') => (Exit c, w')
    | (Starved, w') => (Starved, w')
    end.

Notation "x <- m ;; k" := (bind m (fun x => k))
  (at level 61, m at next level, right associativity).
Notation "m ;; k" := (bind m (fun _ => k))
  (at level 61, right associativity).

Definition throw {A} (e : JS.error) : M A := fun w => (Throw e, w).

Definition processExit {A} (code : Z) : M A := fun w => (Exit code, w).

(** [console.log] *)
Definition log (m : Msg) : M unit :=
  fun w => (Val tt, {| secretKey := secretKey w; bytesFeed := bytesFeed w;
                       intFeed := intFeed w; console := console w ++ [m] |}).

(** [crypto.randomBytes(size)]: the next buffer of the feed. *)
Definition randomBytes (size : Z) : M (list byte) :=
  fun w =>
    match bytesFeed w with
    | b :: rest => (Val b, {| secretKey := secretKey w; bytesFeed := rest;
                              intFeed := intFeed w; console := console w |})
    | [] => (Starved, w)
    end.

(** [crypto.randomInt(min, max)]: the next integer of the feed. *)
Definition randomInt (min max : Z) : M Z :=
  fun w =>
    match intFeed w with
    | n :: rest => (Val n, {| secretKey := secretKey w; bytesFeed := bytesFeed w;
                              intFeed := rest; console := console w |})
    | [] => (Starved, w)
    end.

(** [Dice.roll()], l.9-11 (the game never calls it; [Math.floor] of an
    integer is that integer). *)
Definition roll (d : Dice) : M (option JS.number) :=
  n <- randomInt 0 (len (faces d)) ;;
  ret (at_ (faces d) n).

(** [this.secretKey = key] *)
Definition setSecretKey (key : list byte) : M unit :=
  fun w => (Val tt, {| secretKey := Some key; bytesFeed := bytesFeed w;
                       intFeed := intFeed w; console := console w |}).


(** The script's identifiers in scope inside [play], and the globals of the
    runtime it names.  (No global of the runtime is called [o].) *)
Definition scriptIdentifiers : list string :=
  ["crypto"; "readline"; "Dice"; "DiceParser"; "FairRandomGenerator";
   "ProbabilityCalculator"; "ProbabilityTable"; "Game"; "rl"; "userGoesFirst";
   "userInput"; "probabilities"; "userDiceIndex"; "computerDiceIndex";
   "computerThrow"; "computerHMAC"; "userModInput"; "userNumber"; "result";
   "computerRoll"; "userThrow"; "userHMAC"; "userModThrowInput";
   "userModNumber"; "userResult"; "userRoll"].

Definition runtimeGlobals : list string :=
  ["console"; "process"; "require"; "parseInt"; "isNaN"; "Number"; "Array";
   "Math"; "Promise"; "Error"].

(** Reading a variable: a name that is bound nowhere throws. *)
Definition resolveIdentifier (name : string) : M unit :=
  if existsb (String.eqb name) (scriptIdentifiers ++ runtimeGlobals) then ret tt
  else throw (JS.ReferenceError (name ++ " is not defined")%string).

(** [(a + b) % range] *)
Definition modularSum (a b range : Z) : Z := Z.rem (a + b) range.

(** [userInput === "X" || userInput === "x"] *)
Definition isExit (userInput : string) : bool :=
  String.eqb userInput "X" || String.eqb userInput "x".


Definition join (sep : string) (l : list string) : string := String.concat sep l.





Section Game.

(** [crypto.createHmac("sha3-256", key).update(message).digest("hex")]: the
    keyed hash is the runtime's; the development holds for any function. *)
Variable hmacSha3_256 : list byte -> string -> string.

(* ----------------------------------------------------------------- *)
(** *** [class FairRandomGenerator] *)

(** [constructor()], l.37-39, in a world with the given feeds. *)
Definition newGenerator (keys : list (list byte)) (ints : list Z) : World :=
  {| secretKey := None; bytesFeed := keys; intFeed := ints; console := [] |}.

(** [generateHMAC(message)], l.49-53. *)
Definition generateHMAC (message : Z) : M string :=
  fun w =>
    match secretKey w with
    | Some key => (Val (hmacSha3_256 key (JS.toString message)), w)
    | None => (Throw (JS.TypeError "The key argument must not be null"), w)
    end.

(** The [do ... while (num >= max)] of l.57-59; each turn takes one integer
    from the feed, so [fuel] turns are enough when [fuel] exceeds the length
    of the feed. *)
Fixpoint uniformLoop (max : Z) (fuel : nat) : M Z :=
  match fuel with
  | O => fun w => (Starved, w)
  | S fuel' =>
      num <- randomInt 0 max ;;
      if num >=? max then uniformLoop max fuel' else ret num
  end.

(** [generateUniformRandom(max)], l.55-61. *)
Definition generateUniformRandom (max : Z) : M Z :=
  fun w => uniformLoop max (S (List.length (intFeed w))) w.

(** The object [{ randomNumber, hmac }] of l.46. *)
Record Commitment : Type := { randomNumber : Z; hmac : string }.

(** [generateRandom(max)], l.41-47. *)
Definition generateRandom (max : Z) : M Commitment :=
  key <- randomBytes 32 ;;
  setSecretKey key ;;
  randomNumber <- generateUniformRandom max ;;
  hmac <- generateHMAC randomNumber ;;
  ret {| randomNumber := randomNumber; hmac := hmac |}.

(** [getSecretKey()], l.63-65: [null.toString] throws. *)
Definition getSecretKey : M string :=
  fun w =>
    match secretKey w with
    | Some key => (Val (JS.hex key), w)
    | None => (Throw (JS.TypeError "Cannot read properties of null (reading 'toString')"), w)
    end.

(* ----------------------------------------------------------------- *)
(** *** [class Game] *)

Record Game : Type := { dice : list Dice }.

(** [this.dice[i]] followed by [.faces]: [undefined.faces] throws. *)
Definition diceAt (g : Game) (i : Z) : M Dice :=
  match at_ (dice g) i with
  | Some d => ret d
  | None => throw (JS.TypeError "Cannot read properties of undefined (reading 'faces')")
  end.

(** How a stretch of [play] between two prompts ends: at the next prompt, or
    out of the loop ([break], then [rl.close()]). *)
Inductive Control : Type :=
| Await (p : Pending)
| Done.

(** [determineFirstMove(rl)] up to its prompt, l.114-121. *)
Definition determineFirstMove : M Pending :=
  log LetsDetermine ;;
  c <- generateRandom 2 ;;
  log (ISelected 1 (hmac c)) ;;
  ret (AtFirstMove (randomNumber c) (hmac c)).

(** [determineFirstMove(rl)] from the answer on, l.123-144: another prompt
    (the function called itself) or the boolean it returns. *)
Definition firstMoveAnswered (randomNumber : Z) (userInput : string)
  : M (Pending + bool) :=
  if isExit userInput then
    log ThanksForPlaying ;; processExit 0
  else
    let again := log InvalidGuess ;; p <- determineFirstMove ;; ret (inl p) in
    match JS.parseInt userInput with
    | None => again
    | Some userGuess =>
        if (userGuess <? 0) || (userGuess >? 1) then again
        else
          key <- getSecretKey ;;
          log (MySelection randomNumber key) ;;
          if userGuess =? randomNumber then log YouGuessed ;; ret (inr true)
          else log IMakeFirstMove ;; ret (inr false)
    end.

(** [play()] up to the first prompt, l.148-156. *)
Definition playStart : M Control :=
  log Welcome ;;
  log TypeHelp ;;
  p <- determineFirstMove ;;
  ret (Await p).

(** The loop of [play] from the answer to "Choose your dice" to the next
    prompt, l.166-217. *)
Definition chooseDiceAnswered (g : Game) (userGoesFirst : bool) (userInput : string)
  : M Control :=
  if isExit userInput then
    log ThanksForPlaying ;; ret Done
  else if String.eqb userInput "?" then
    log (ProbabilityTable (ProbabilityCalculator.calculate (dice g))) ;;
    ret (Await (AtChooseDice userGoesFirst))
  else
    let again := log InvalidChoice ;; ret (Await (AtChooseDice userGoesFirst)) in
    match JS.parseInt userInput with
    | None => again
    | Some userDiceIndex =>
        if (userDiceIndex <? 0) || (userDiceIndex >=? len (dice g)) then again
        else
          userDice <- diceAt g userDiceIndex ;;
          log (YouChose (faces userDice)) ;;
          computerDiceIndex <- generateUniformRandom (len (dice g)) ;;
          computerDice <- diceAt g computerDiceIndex ;;
          log (IChoose (faces computerDice)) ;;
          log TimeForMyThrow ;;
          c <- generateRandom (len (faces computerDice)) ;;
          log (ISelected (len (faces computerDice) - 1) (hmac c)) ;;
          ret (Await (AtHostThrow userGoesFirst userDiceIndex computerDiceIndex
                                  (randomNumber c) (hmac c)))
    end.

(** From the answer to the first "Add your number" to the second one,
    l.219-264. *)
Definition hostThrowAnswered (g : Game) (userGoesFirst : bool)
    (userDiceIndex computerDiceIndex computerThrow : Z) (userModInput : string)
  : M Control :=
  if isExit userModInput then
    log ThanksForPlaying ;; ret Done
  else
    let again := log InvalidNumber ;; ret (Await (AtChooseDice userGoesFirst)) in
    match JS.parseInt userModInput with
    | None => again
    | Some userNumber =>
        if userNumber <? 0 then again
        else
          computerDice <- diceAt g computerDiceIndex ;;
          if userNumber >=? len (faces computerDice) then again
          else
            key <- getSecretKey ;;
            log (MyNumberIs computerThrow key) ;;
            let result := modularSum computerThrow userNumber (len (faces computerDice)) in
            log (TheResultIs computerThrow userNumber result (len (faces computerDice))) ;;
            let computerRoll := at_ (faces computerDice) result in
            log (MyThrowIs computerRoll) ;;
            log TimeForYourThrow ;;
            userDice <- diceAt g userDiceIndex ;;
            c <- generateRandom (len (faces userDice)) ;;
            log (ISelected (len (faces userDice) - 1) (hmac c)) ;;
            ret (Await (AtPlayerThrow userGoesFirst userDiceIndex computerDiceIndex
                                      computerRoll (randomNumber c) (hmac c)))
    end.

(** From the answer to the second "Add your number" to the end of the loop
    body, l.266-300.  The template of l.287 carries the tag [o], which is
    read before anything of the template is printed. *)
Definition playerThrowAnswered (g : Game) (userGoesFirst : bool)
    (userDiceIndex : Z) (computerRoll : option JS.number) (userThrow : Z)
    (userModThrowInput : string)
  : M Control :=
  if isExit userModThrowInput then
    log ThanksForPlaying ;; ret Done
  else
    let again := log InvalidNumber ;; ret (Await (AtChooseDice userGoesFirst)) in
    match JS.parseInt userModThrowInput with
    | None => again
    | Some userModNumber =>
        if userModNumber <? 0 then again
        else
          userDice <- diceAt g userDiceIndex ;;
          if userModNumber >=? len (faces userDice) then again
          else
            key <- getSecretKey ;;
            log (MyNumberIs userThrow key) ;;
            let userResult := modularSum userThrow userModNumber (len (faces userDice)) in
            resolveIdentifier "o" ;;
            log (TheResultIs userThrow userModNumber userResult (len (faces userDice))) ;;
            let userRoll := at_ (faces userDice) userResult in
            log (YourThrowIs userRoll) ;;
            (if JS.gt_u userRoll computerRoll then log (YouWin userRoll computerRoll)
             else if JS.gt_u computerRoll userRoll then log (IWin computerRoll userRoll)
             else log Tie) ;;
            ret (Await (AtChooseDice userGoesFirst))
    end.

(** The script resumed at the prompt [p] with the line [userInput]. *)
Definition resume (g : Game) (p : Pending) (userInput : string) : M Control :=
  match p with
  | AtFirstMove randomNumber _ =>
      r <- firstMoveAnswered randomNumber userInput ;;
      match r with
      | inl p' => ret (Await p')
      | inr userGoesFirst => ret (Await (AtChooseDice userGoesFirst))
      end
  | AtChooseDice userGoesFirst => chooseDiceAnswered g userGoesFirst userInput
  | AtHostThrow userGoesFirst userDiceIndex computerDiceIndex computerThrow _ =>
      hostThrowAnswered g userGoesFirst userDiceIndex computerDiceIndex
                        computerThrow userInput
  | AtPlayerThrow userGoesFirst userDiceIndex _ computerRoll userThrow _ =>
      playerThrowAnswered g userGoesFirst userDiceIndex computerRoll userThrow userInput
  end.

(** How a session ends once the input is used up. *)
Inductive Outcome : Type :=
| ConfigError (message : string) (* l.315: the [catch] printed the message *)
| Waiting (p : Pending)          (* a prompt is open and no line is left *)
| Closed                         (* the loop was left, l.302 *)
| ProcessExit (code : Z)         (* l.125 *)
| Rejected (e : JS.error)        (* an exception ended [play] *)
| OutOfEntropy.                  (* a feed ran dry *)

(** The prompts answered one line after the other. *)
Fixpoint run (g : Game) (p : Pending) (inputs : list string) (w : World)
  : Outcome * World :=
  match inputs with
  | [] => (Waiting p, w)
  | userInput :: rest =>
      match resume g p userInput w with
      | (Val (Await p'), w') => run g p' rest w'
      | (Val Done, w') => (Closed, w')
      | (Throw e, w') => (Rejected e, w')
      | (Exit c, w') => (ProcessExit c, w')
      | (Starved, w') => (OutOfEntropy, w')
      end
  end.

(** [play()], l.147-303, on the lines [inputs]. *)
Definition play (g : Game) (inputs : list string) (w : World) : Outcome * World :=
  match playStart w with
  | (Val (Await p), w') => run g p inputs w'
  | (Val Done, w') => (Closed, w')
  | (Throw e, w') => (Rejected e, w')
  | (Exit c, w') => (ProcessExit c, w')
  | (Starved, w') => (OutOfEntropy, w')
  end.

Definition message (e : JS.error) : string :=
  match e with
  | JS.Error m | JS.TypeError m | JS.ReferenceError m | JS.RangeError m => m
  end.

(** The top level, l.310-316: the arguments are parsed, a game is built on
    them and played; an exception of [parseDice] is caught and printed.
    ([play] is not awaited: what it throws is not caught there.) *)
Definition main (argv inputs : list string) (keys : list (list byte)) (ints : list Z)
  : Outcome * World :=
  match DiceParser.parseDice argv with
  | inl e => (ConfigError (message e), newGenerator keys ints)
  | inr ds => play {| dice := ds |} inputs (newGenerator keys ints)
  end.

End Game.

(* ================================================================= *)
(** ** The generator with the runtime's checks *)

(** [Number.MAX_SAFE_INTEGER], and the widest range [crypto.randomInt]
    takes. *)
Definition maxSafeInteger : Z := 2 ^ 53 - 1.
Definition randMax : Z := 2 ^ 48 - 1.

(** [Number.isSafeInteger] of an integer. *)
Definition isSafeInteger (z : Z) : bool :=
  (- maxSafeInteger <=? z) && (z <=? maxSafeInteger).

(** [randomInt] and [randomBytes] above hand out what the feed holds,
    whatever their arguments.  Here they are with what the runtime checks
    and promises: [crypto.randomInt(min, max)] throws unless [min] and [max]
    are safe integers with [min < max] and [max - min <= 2^48 - 1], and
    returns an integer [n] with [min <= n < max]; [crypto.randomBytes(size)]
    throws unless [0 <= size <= 2^31 - 1] and returns [size] bytes.  A feed
    whose next value is no possible result of the call describes no run of
    the script ([Starved]).  An error of the runtime is given by its class
    and its code; the text of its message, which quotes the argument, is
    left out.  The generator is then the one of the script over these
    two. *)
Module Checked.

Definition starved {A} : M A := fun w => (Starved, w).

Definition randomInt (min max : Z) : M Z :=
  if negb (isSafeInteger min) then
    throw (JS.TypeError "ERR_INVALID_ARG_TYPE")
  else if negb (isSafeInteger max) then
    throw (JS.TypeError "ERR_INVALID_ARG_TYPE")
  else if max <=? min then
    throw (JS.RangeError "ERR_OUT_OF_RANGE")
  else if randMax <? max - min then
    throw (JS.RangeError "ERR_OUT_OF_RANGE")
  else
    n <- randomInt min max ;;
    if (min <=? n) && (n <? max) then ret n else starved.

Definition randomBytes (size : Z) : M (list byte) :=
  if (size <? 0) || (2 ^ 31 - 1 <? size) then
    throw (JS.RangeError "ERR_OUT_OF_RANGE")
  else
    b <- randomBytes size ;;
    if len b =? size then ret b else starved.

(** The [do ... while (num >= max)] of l.57-59. *)
Fixpoint uniformLoop (max : Z) (fuel : nat) : M Z :=
  match fuel with
  | O => starved
  | S fuel' =>
      num <- randomInt 0 max ;;
      if num >=? max then uniformLoop max fuel' else ret num
  end.

(** [generateUniformRandom(max)], l.55-61. *)
Definition generateUniformRandom (max : Z) : M Z :=
  fun w => uniformLoop max (S (List.length (intFeed w))) w.

(** [generateRandom(max)], l.41-47. *)
Definition generateRandom (H : list byte -> string -> string) (max : Z)
  : M Commitment :=
  key <- randomBytes 32 ;;
  setSecretKey key ;;
  randomNumber <- generateUniformRandom max ;;
  hmac <- generateHMAC H randomNumber ;;
  ret {| randomNumber := randomNumber; hmac := hmac |}.

End Checked.


(** A stand-in for the keyed hash, used where a statement is shown on
    concrete values: the key in hexadecimal, a colon, the message. *)
Definition tagHmac (key : list byte) (message : string) : string :=
  (JS.hex key ++ ":" ++ message)%string.

Definition key1 : list byte := repeat x01 32.
Definition key2 : list byte := repeat x02 32.
Definition key3 : list byte := repeat x03 32.

(** The three dice of the end-to-end scenario. *)
Definition ones : Dice := {| faces := repeat (JS.Num 1) 6 |}.
Definition zeros : Dice := {| faces := repeat (JS.Num 0) 6 |}.
Definition twos : Dice := {| faces := repeat (JS.Num 2) 6 |}.
Definition scenario : Game := {| dice := [ones; zeros; twos] |}.


(** The integers [0 .. n-1], in order. *)
Definition zrange (n : Z) : list Z := map Z.of_nat (seq 0 (Z.to_nat n)).

(** The number of pairs of the cross product of two face lists whose first
    component is strictly greater than the second. *)
Definition pairsWon (faces1 faces2 : list JS.number) : nat :=
  List.length (filter (fun p => JS.gt (fst p) (snd p)) (list_prod faces1 faces2)).

(** [w] with one more line on the console, and with other feeds. *)
Definition printed (w : World) (ms : list Msg) : World :=
  {| secretKey := secretKey w; bytesFeed := bytesFeed w; intFeed := intFeed w;
     console := console w ++ ms |}.

(** The text is made of the digits [0-9] and the letters [a-f] only. *)
Definition lowercaseHex (s : string) : bool :=
  forallb (fun c => let n := JS.code c in
                    ((48 <=? n) && (n <=? 57)) || ((97 <=? n) && (n <=? 102)))
          (list_ascii_of_string s).

(** The guards of l.129, l.225-229 and l.272-276 on a line that is not an
    exit request. *)
Definition invalidGuess (userInput : string) : bool :=
  negb (isExit userInput) &&
  match JS.parseInt userInput with
  | None => true
  | Some n => (n <? 0) || (n >? 1)
  end.

Definition invalidContribution (userInput : string) (range : Z) : bool :=
  negb (isExit userInput) &&
  match JS.parseInt userInput with
  | None => true
  | Some n => (n <? 0) || (n >=? range)
  end.

(** The arguments of the sessions shown below. *)
Definition scenarioArgs : list string := ["1,1,1,1,1,1"; "0,0,0,0,0,0"; "2,2,2,2,2,2"].

(** The dice of the specification's example of a cycle. *)
Definition dieA : Dice := {| faces := map JS.ofZ [2; 2; 4; 4; 9; 9] |}.
Definition dieB : Dice := {| faces := map JS.ofZ [6; 8; 1; 1; 8; 6] |}.
Definition dieC : Dice := {| faces := map JS.ofZ [7; 5; 3; 7; 5; 3] |}.


(** [m] only adds to the console, and nothing of the given kind. *)
Definition silent (kind : Msg -> bool) {A} (m : M A) : Prop :=
  forall w, exists ms, console (snd (m w)) = console w ++ ms /\ existsb kind ms = false.

(** The value of a decimal numeral read from the left, continuing from
    [acc]. *)
Fixpoint uintValue (d : Decimal.uint) (acc : Z) : Z :=
  match d with
  | Decimal.Nil => acc
  | Decimal.D0 d' => uintValue d' (acc * 10)
  | Decimal.D1 d' => uintValue d' (acc * 10 + 1)
  | Decimal.D2 d' => uintValue d' (acc * 10 + 2)
  | Decimal.D3 d' => uintValue d' (acc * 10 + 3)
  | Decimal.D4 d' => uintValue d' (acc * 10 + 4)
  | Decimal.D5 d' => uintValue d' (acc * 10 + 5)
  | Decimal.D6 d' => uintValue d' (acc * 10 + 6)
  | Decimal.D7 d' => uintValue d' (acc * 10 + 7)
  | Decimal.D8 d' => uintValue d' (acc * 10 + 8)
  | Decimal.D9 d' => uintValue d' (acc * 10 + 9)
  end.

(** The characters of a decimal numeral. *)
Definition uintChars (d : Decimal.uint) : list ascii :=
  list_ascii_of_string (NilEmpty.string_of_uint d).

(** A character [0] to [9]. *)
Definition isDecimalDigit (c : ascii) : bool :=
  (48 <=? JS.code c) && (JS.code c <=? 57).

(** The die an argument stands for, and whether [parseDice] takes the
    argument (no piece of it is read as [NaN]). *)
Definition diceOf (arg : string) : Dice :=
  {| faces := map JS.Number (JS.split arg ",") |}.

Definition wellFormed (arg : string) : bool :=
  negb (existsb JS.isNaN (map JS.Number (JS.split arg ","))).

(** The argument that writes a die of integer faces in decimal. *)
Definition argOf (zs : list Z) : string := join "," (map JS.toString zs).

(** The number of pairs of the cross product in which neither face is
    greater than the other. *)
Definition pairsTied (faces1 faces2 : list JS.number) : nat :=
  List.length
    (filter (fun p => negb (JS.gt (fst p) (snd p)) && negb (JS.gt (snd p) (fst p)))
            (list_prod faces1 faces2)).

(** The commitment a prompt waits on: its value and its digest. *)
Definition outstanding (p : Pending) : option (Z * string) :=
  match p with
  | AtFirstMove randomNumber hmac => Some (randomNumber, hmac)
  | AtChooseDice _ => None
  | AtHostThrow _ _ _ computerThrow computerHMAC => Some (computerThrow, computerHMAC)
  | AtPlayerThrow _ _ _ _ userThrow userHMAC => Some (userThrow, userHMAC)
  end.

(** What a message that reveals a key shows: a value and the text of a
    key. *)
Definition revealed (m : Msg) : option (Z * string) :=
  match m with
  | MySelection n key | MyNumberIs n key => Some (n, key)
  | _ => None
  end.

Definition isReveal (m : Msg) : bool :=
  match revealed m with Some _ => true | None => false end.

(** The state at a prompt is sound: the digest the prompt waits on is the
    last line printed, and it is the keyed hash of the value the prompt
    waits on under the key the generator holds. *)
Definition sound (H : list byte -> string -> string) (p : Pending) (w : World) : Prop :=
  match outstanding p with
  | None => True
  | Some (value, digest) =>
      exists key top out,
        secretKey w = Some key /\ digest = H key (JS.toString value) /\
        console w = out ++ [ISelected top digest]
  end.

(** The prompt with the flag of the first move set to [b] (the first-move
    prompt has none), and the same for an outcome and for the end of a stretch. *)
Definition withFlag (b : bool) (p : Pending) : Pending :=
  match p with
  | AtFirstMove n d => AtFirstMove n d
  | AtChooseDice _ => AtChooseDice b
  | AtHostThrow _ u c t d => AtHostThrow b u c t d
  | AtPlayerThrow _ u c r t d => AtPlayerThrow b u c r t d
  end.

Definition reflag (b : bool) (o : Outcome) : Outcome :=
  match o with
  | Waiting p => Waiting (withFlag b p)
  | other => other
  end.

Definition reflagStep (b : bool) (r : Result Control) : Result Control :=
  match r with
  | Val (Await p) => Val (Await (withFlag b p))
  | other => other
  end.

Definition isFirstMove (p : Pending) : bool :=
  match p with AtFirstMove _ _ => true | _ => false end.

(** The prompt a stretch may end at, read off the value it returns. *)
Definition ofControl (c : Control) : option Pending :=
  match c with Await p => Some p | Done => None end.

Definition ofAnswer (r : Pending + bool) : option Pending :=
  match r with inl p => Some p | inr _ => None end.

(** Where the stretch [m] ends at a prompt, the state there is sound. *)
Definition lands (H : list byte -> string -> string) {A} (f : A -> option Pending)
    (m : M A) : Prop :=
  forall w a w' p, m w = (Val a, w') -> f a = Some p -> sound H p w'.

(** The stretch [m] only adds to the console, and a key it reveals is shown
    with the value [v] and is the key the generator held when the stretch
    began. *)
Definition shows (v : Z) {A} (m : M A) : Prop :=
  forall w, exists ms,
    console (snd (m w)) = console w ++ ms /\
    forall x n k, In x ms -> revealed x = Some (n, k) ->
                  n = v /\ exists key, secretKey w = Some key /\ k = JS.hex key.

(* ================================================================= *)
(** ** The built-ins on examples *)

Example Number_examples :
  JS.Number "2" = JS.Num 2 /\ JS.Number "" = JS.Num 0 /\
  JS.Number " 12 " = JS.Num 12 /\ JS.Number "1.5" = JS.Num (3 # 2) /\
  JS.Number "-7" = JS.Num (-7 # 1) /\ JS.Number "x" = JS.NaN /\
  JS.Number "1e3" = JS.Num 1000 /\ JS.Number "0x10" = JS.Num 16 /\
  JS.Number "-0x10" = JS.NaN /\ JS.Number "." = JS.NaN /\
  JS.Number "5." = JS.Num 5 /\ JS.Number ".5" = JS.Num (1 # 2) /\
  JS.Number "1e" = JS.NaN /\ JS.Number "12px" = JS.NaN /\
  JS.Number "-Infinity" = JS.Infinity true.
Proof. vm_compute. repeat split. Qed.

Example parseInt_examples :
  JS.parseInt "1" = Some 1 /\ JS.parseInt "?" = None /\
  JS.parseInt "" = None /\ JS.parseInt " 2x" = Some 2 /\
  JS.parseInt "-3" = Some (-3) /\ JS.parseInt "1.9" = Some 1 /\
  JS.parseInt "X" = None /\ JS.parseInt "0x10" = Some 0.
Proof. vm_compute. repeat split. Qed.

Example split_examples :
  JS.split "1,2,3" "," = ["1"; "2"; "3"] /\ JS.split "" "," = [""] /\
  JS.split "1,,2" "," = ["1"; ""; "2"] /\ JS.split "7," "," = ["7"; ""].
Proof. vm_compute. repeat split. Qed.

Example toString_examples :
  JS.toString 0 = "0" /\ JS.toString 1 = "1" /\ JS.toString 105 = "105".
Proof. vm_compute. repeat split. Qed.

Example hex_examples :
  JS.hex [x00; x0f; xa5; xff] = "000fa5ff".
Proof. vm_compute. reflexivity. Qed.

(* ================================================================= *)
(** ** Modular sum *)



Lemma zrange_length (n : Z) : List.length (zrange n) = Z.to_nat n.
Proof. unfold zrange. now rewrite length_map, length_seq. Qed.

Lemma modularSum_cases (a b range : Z) :
  0 <= a < range -> 0 <= b < range ->
  modularSum a b range = if a + b <? range then a + b else a + b - range.
Proof.
  intros Ha Hb. unfold modularSum.
  rewrite Z.rem_mod_nonneg by lia.
  destruct (a + b <? range) eqn:E.
  - apply Z.ltb_lt in E. apply Z.mod_small. lia.
  - apply Z.ltb_ge in E. symmetry. apply (Z.mod_unique_pos _ _ 1); lia.
Qed.





(* ================================================================= *)
(** ** The probability matrix *)

Module MatrixFacts.
Import ProbabilityCalculator.

Lemma inner_loop_counts (face1 : JS.number) (faces2 : list JS.number) (wins : Z) :
  fold_left (fun wins face2 => if JS.gt face1 face2 then wins + 1 else wins) faces2 wins
  = wins + Z.of_nat (List.length (filter (JS.gt face1) faces2)).
Proof.
  revert wins. induction faces2 as [|face2 rest IH]; intros wins; simpl.
  - lia.
  - rewrite IH. destruct (JS.gt face1 face2); simpl; lia.
Qed.

Lemma filter_pairs_with (face1 : JS.number) (faces2 : list JS.number) :
  List.length (filter (fun p => JS.gt (fst p) (snd p)) (map (pair face1) faces2))
  = List.length (filter (JS.gt face1) faces2).
Proof.
  induction faces2 as [|face2 rest IH]; simpl; [reflexivity|].
  destruct (JS.gt face1 face2); simpl; now rewrite IH.
Qed.

Lemma outer_loop_counts (faces1 faces2 : list JS.number) (wins : Z) :
  fold_left
    (fun wins face1 =>
       fold_left (fun wins face2 => if JS.gt face1 face2 then wins + 1 else wins)
                 faces2 wins)
    faces1 wins
  = wins + Z.of_nat (pairsWon faces1 faces2).
Proof.
  unfold pairsWon. revert wins.
  induction faces1 as [|face1 rest IH]; intros wins; simpl.
  - lia.
  - rewrite IH, inner_loop_counts, filter_app, length_app, filter_pairs_with. lia.
Qed.

Lemma countWins_pairsWon (faces1 faces2 : list JS.number) :
  countWins faces1 faces2 = Z.of_nat (pairsWon faces1 faces2).
Proof. unfold countWins. now rewrite outer_loop_counts. Qed.

Lemma div_positive (a b : Z) :
  0 < b -> exists q, JS.div a b = JS.Num q /\ (q == inject_Z a / inject_Z b)%Q.
Proof.
  intros Hb. unfold JS.div.
  destruct (b =? 0) eqn:E0; [apply Z.eqb_eq in E0; lia|].
  destruct (b <? 0) eqn:E1; [apply Z.ltb_lt in E1; lia|].
  eexists. split; [reflexivity|].
  rewrite Qred_correct, Qmake_Qdiv. now rewrite Z2Pos.id.
Qed.

Lemma row_entry (ds : list Dice) (i j : nat) :
  (j < List.length ds)%nat ->
  nth_error
    (map (fun j =>
            if Nat.eqb i j then JS.Num (1 # 2)
            else match nth_error ds i, nth_error ds j with
                 | Some di, Some dj => calculateProbability di dj
                 | _, _ => JS.NaN
                 end)
         (indices (List.length ds))) j
  = Some (if Nat.eqb i j then JS.Num (1 # 2)
          else match nth_error ds i, nth_error ds j with
               | Some di, Some dj => calculateProbability di dj
               | _, _ => JS.NaN
               end).
Proof.
  intros Hj. unfold indices.
  rewrite nth_error_map, nth_error_seq.
  apply Nat.ltb_lt in Hj. now rewrite Hj.
Qed.

End MatrixFacts.

(** C9. For dice that all have a face, the matrix has one row per die and
    one entry per die in every row; an entry on the diagonal is [0.5]; the
    entry of row [i] and column [j], [i <> j], is the number of pairs of a
    face of die [i] and a face of die [j] with the first strictly greater
    (a pair of equal faces counts for neither die), divided by the number of
    all pairs. *)
Theorem calculate_entries (ds : list Dice) :
  Forall (fun d => faces d <> []) ds ->
  List.length (ProbabilityCalculator.calculate ds) = List.length ds /\
  forall i j di dj,
    nth_error ds i = Some di -> nth_error ds j = Some dj ->
    exists row,
      nth_error (ProbabilityCalculator.calculate ds) i = Some row /\
      List.length row = List.length ds /\
      (i = j -> nth_error row j = Some (JS.Num (1 # 2))) /\
      (i <> j -> exists q,
         nth_error row j = Some (JS.Num q) /\
         (q == inject_Z (Z.of_nat (pairsWon (faces di) (faces dj)))
               / inject_Z (len (faces di) * len (faces dj)))%Q).
Proof.
  intros Hne. split.
  - unfold ProbabilityCalculator.calculate, ProbabilityCalculator.indices.
    now rewrite length_map, length_seq.
  - intros i j di dj Hi Hj.
    assert (Li : (i < List.length ds)%nat) by (apply nth_error_Some; congruence).
    assert (Lj : (j < List.length ds)%nat) by (apply nth_error_Some; congruence).
    eexists. split; [|split; [|split]].
    + unfold ProbabilityCalculator.calculate at 1.
      unfold ProbabilityCalculator.indices at 2.
      rewrite nth_error_map, nth_error_seq.
      apply Nat.ltb_lt in Li. rewrite Li. simpl. reflexivity.
    + unfold ProbabilityCalculator.indices. now rewrite length_map, length_seq.
    + intros ->. rewrite MatrixFacts.row_entry by assumption.
      now rewrite Nat.eqb_refl.
    + intros Hij. rewrite MatrixFacts.row_entry by assumption.
      apply Nat.eqb_neq in Hij. rewrite Hij, Hi, Hj.
      unfold ProbabilityCalculator.calculateProbability.
      rewrite MatrixFacts.countWins_pairsWon.
      rewrite Forall_forall in Hne.
      assert (faces di <> []) by (apply Hne; eapply nth_error_In; eauto).
      assert (faces dj <> []) by (apply Hne; eapply nth_error_In; eauto).
      assert (Hpos : 0 < len (faces di) * len (faces dj)).
      { unfold len. destruct (faces di), (faces dj); simpl; try congruence; lia. }
      destruct (MatrixFacts.div_positive
                  (Z.of_nat (pairsWon (faces di) (faces dj))) _ Hpos) as [q [Eq Hq]].
      exists q. now rewrite Eq.
Qed.

Lemma calculate_entries_witness :
  List.length (ProbabilityCalculator.calculate [dieA; dieB; dieC]) = 3%nat /\
  ProbabilityCalculator.calculate [dieA; dieB; dieC]
  = [[JS.Num (1 # 2); JS.Num (5 # 9); JS.Num (4 # 9)];
     [JS.Num (4 # 9); JS.Num (1 # 2); JS.Num (5 # 9)];
     [JS.Num (5 # 9); JS.Num (4 # 9); JS.Num (1 # 2)]].
Proof.
  split.
  - apply (calculate_entries [dieA; dieB; dieC]).
    repeat constructor; discriminate.
  - vm_compute. reflexivity.
Defined.

(* ================================================================= *)
(** ** The generator *)

Module GeneratorFacts.






Lemma hexByte_lowercase (b : byte) :
  forallb (fun c => let n := JS.code c in
                    ((48 <=? n) && (n <=? 57)) || ((97 <=? n) && (n <=? 102)))
          (JS.hexByte b) = true.
Proof. destruct b; reflexivity. Qed.

Lemma hex_lowercase (k : list byte) : lowercaseHex (JS.hex k) = true.
Proof.
  unfold lowercaseHex, JS.hex. rewrite list_ascii_of_string_of_list_ascii.
  induction k as [|b k IH]; [reflexivity|].
  cbn [flat_map]. rewrite forallb_app, IH, hexByte_lowercase. reflexivity.
Qed.

Section Loop.
Variable max : Z.

(** A turn of the loop leaves everything but the feed of integers alone. *)
Lemma uniformLoop_frame (fuel : nat) (w w' : World) (n : Z) :
  uniformLoop max fuel w = (Val n, w') ->
  secretKey w' = secretKey w /\ bytesFeed w' = bytesFeed w /\
  console w' = console w /\ n < max.
Proof.
  revert w. induction fuel as [|fuel IH]; intros w E; simpl in E; [discriminate|].
  unfold bind, randomInt in E. destruct (intFeed w) as [|num rest]; [discriminate|].
  destruct (num >=? max) eqn:G.
  - apply IH in E. simpl in E. exact E.
  - unfold ret in E. injection E as <- <-. simpl.
    rewrite Z.geb_leb in G. apply Z.leb_gt in G. auto.
Qed.

(** The loop skips the integers that are not below [max] and returns the
    first one that is. *)
Lemma uniformLoop_first_below (rejected : list Z) (n : Z) (rest : list Z)
      (fuel : nat) (sk : option (list byte)) (keys : list (list byte)) (out : list Msg) :
  Forall (fun x => max <= x) rejected -> n < max ->
  (List.length rejected < fuel)%nat ->
  uniformLoop max fuel
    {| secretKey := sk; bytesFeed := keys; intFeed := rejected ++ n :: rest; console := out |}
  = (Val n, {| secretKey := sk; bytesFeed := keys; intFeed := rest; console := out |}).
Proof.
  intros Hrej Hn. revert fuel.
  induction Hrej as [|x rejected Hx _ IH]; intros fuel Hfuel;
    (destruct fuel as [|fuel]; [simpl in Hfuel; lia|]); simpl.
  - unfold bind, randomInt. simpl.
    assert (G : (n >=? max) = false) by (rewrite Z.geb_leb; apply Z.leb_gt; lia).
    now rewrite G.
  - unfold bind, randomInt. simpl.
    assert (G : (x >=? max) = true) by (rewrite Z.geb_leb; apply Z.leb_le; lia).
    rewrite G. apply IH. simpl in Hfuel. lia.
Qed.

End Loop.

Lemma generateUniformRandom_first_below (max : Z) (rejected : list Z) (n : Z)
      (rest : list Z) (sk : option (list byte)) (keys : list (list byte)) (out : list Msg) :
  Forall (fun x => max <= x) rejected -> n < max ->
  generateUniformRandom max
    {| secretKey := sk; bytesFeed := keys; intFeed := rejected ++ n :: rest; console := out |}
  = (Val n, {| secretKey := sk; bytesFeed := keys; intFeed := rest; console := out |}).
Proof.
  intros Hrej Hn. unfold generateUniformRandom.
  apply uniformLoop_first_below; try assumption.
  simpl. rewrite length_app. simpl. lia.
Qed.

Section Hash.
Variable H : list byte -> string -> string.

(** What a call of [generateRandom] that returns has done. *)
Lemma generateRandom_inv (max : Z) (w w' : World) (c : Commitment) :
  generateRandom H max w = (Val c, w') ->
  exists key keys,
    bytesFeed w = key :: keys /\ bytesFeed w' = keys /\
    secretKey w' = Some key /\ console w' = console w /\
    hmac c = H key (JS.toString (randomNumber c)) /\ randomNumber c < max.
Proof.
  unfold generateRandom, bind, randomBytes, setSecretKey. intros E.
  destruct (bytesFeed w) as [|key keys]; [discriminate|].
  exists key, keys.
  unfold generateUniformRandom in E. cbn [intFeed] in E.
  match type of E with
  | context [uniformLoop max ?f ?w0] => destruct (uniformLoop max f w0) as [[n| | |] w1] eqn:L
  end; try discriminate.
  apply uniformLoop_frame in L. cbn in L. destruct L as [Ls [Lb [Lc Ln]]].
  unfold generateHMAC in E. rewrite Ls in E. unfold ret in E.
  injection E as <- <-. cbn. repeat split; assumption || reflexivity.
Qed.

Lemma generateRandom_first_below (max : Z) (rejected : list Z) (n : Z)
      (rest : list Z) (sk : option (list byte)) (key : list byte)
      (keys : list (list byte)) (out : list Msg) :
  Forall (fun x => max <= x) rejected -> n < max ->
  generateRandom H max
    {| secretKey := sk; bytesFeed := key :: keys; intFeed := rejected ++ n :: rest;
       console := out |}
  = (Val {| randomNumber := n; hmac := H key (JS.toString n) |},
     {| secretKey := Some key; bytesFeed := keys; intFeed := rest; console := out |}).
Proof.
  intros Hrej Hn. unfold generateRandom, bind, randomBytes, setSecretKey.
  cbn [bytesFeed secretKey intFeed console].
  rewrite generateUniformRandom_first_below by assumption.
  reflexivity.
Qed.

End Hash.
End GeneratorFacts.

(* ================================================================= *)
(** ** The checked generator *)

Module CheckedFacts.

Lemma randomInt_inv (min max : Z) (w w' : World) (n : Z) :
  Checked.randomInt min max w = (Val n, w') ->
  min <= n < max /\ max - min <= randMax /\
  intFeed w = n :: intFeed w' /\ secretKey w' = secretKey w /\
  bytesFeed w' = bytesFeed w /\ console w' = console w.
Proof.
  unfold Checked.randomInt.
  destruct (negb (isSafeInteger min)); [discriminate|].
  destruct (negb (isSafeInteger max)); [discriminate|].
  destruct (max <=? min); [discriminate|].
  destruct (randMax <? max - min) eqn:R; [discriminate|]. apply Z.ltb_ge in R.
  unfold bind, randomInt. destruct (intFeed w) as [|k rest] eqn:F; [discriminate|].
  destruct ((min <=? k) && (k <? max)) eqn:B; [|discriminate].
  unfold ret. intros E. injection E as <- <-. cbn.
  apply andb_true_iff in B. destruct B as [B1 B2].
  apply Z.leb_le in B1. apply Z.ltb_lt in B2. repeat split; auto.
Qed.


(** A range the runtime refuses: nothing is consumed. *)
Lemma randomInt_refused (max : Z) (w : World) :
  max <= 0 \/ randMax < max ->
  exists e, Checked.randomInt 0 max w = (Throw e, w).
Proof.
  intros R. unfold Checked.randomInt. cbn [isSafeInteger negb].
  change (negb (isSafeInteger 0)) with false. cbn iota.
  destruct (negb (isSafeInteger max)); [eexists; reflexivity|].
  destruct (max <=? 0) eqn:E1; [eexists; reflexivity|]. apply Z.leb_gt in E1.
  rewrite Z.sub_0_r.
  destruct (randMax <? max) eqn:E2; [eexists; reflexivity|]. apply Z.ltb_ge in E2. lia.
Qed.

Lemma safe_in_range (max : Z) : 0 < max <= randMax -> isSafeInteger max = true.
Proof.
  intros B. unfold isSafeInteger, maxSafeInteger, randMax in *.
  apply andb_true_iff. split; apply Z.leb_le; lia.
Qed.

(** The loop over the checked primitive, in full. *)
Lemma uniformLoop_spec (max : Z) (fuel : nat) (w : World) :
  match Checked.uniformLoop max (S fuel) w with
  | (Val n, w') =>
      0 < max <= randMax /\ 0 <= n < max /\ intFeed w = n :: intFeed w' /\
      secretKey w' = secretKey w /\ bytesFeed w' = bytesFeed w /\
      console w' = console w
  | (Throw e, w') => (max <= 0 \/ randMax < max) /\ w' = w
  | (Starved, w') =>
      0 < max <= randMax /\
      match intFeed w with [] => True | n :: _ => ~ 0 <= n < max end
  | (Exit _, _) => False
  end.
Proof.
  cbn [Checked.uniformLoop]. unfold bind at 1.
  destruct (Z_le_gt_dec max 0) as [L|G].
  { destruct (randomInt_refused max w (or_introl L)) as [e E]. rewrite E. auto. }
  destruct (Z_lt_le_dec randMax max) as [L|R].
  { destruct (randomInt_refused max w (or_intror L)) as [e E]. rewrite E. auto. }
  destruct (Checked.randomInt 0 max w) as [[n| | |] w1] eqn:E.
  - apply randomInt_inv in E. destruct E as [B [_ [F Fr]]].
    assert (G' : (n >=? max) = false) by (rewrite Z.geb_leb; apply Z.leb_gt; lia).
    rewrite G'. unfold ret. repeat split; try lia; tauto.
  - exfalso. unfold Checked.randomInt in E.
    rewrite (safe_in_range max) in E by lia.
    change (negb (isSafeInteger 0)) with false in E. cbn [negb] in E.
    assert (E1 : (max <=? 0) = false) by (apply Z.leb_gt; lia).
    assert (E2 : (randMax <? max - 0) = false) by (apply Z.ltb_ge; lia).
    rewrite E1, E2 in E. unfold bind, randomInt in E.
    destruct (intFeed w); [discriminate|].
    destruct ((0 <=? z) && (z <? max)); discriminate.
  - exfalso. unfold Checked.randomInt in E.
    rewrite (safe_in_range max) in E by lia.
    change (negb (isSafeInteger 0)) with false in E. cbn [negb] in E.
    assert (E1 : (max <=? 0) = false) by (apply Z.leb_gt; lia).
    assert (E2 : (randMax <? max - 0) = false) by (apply Z.ltb_ge; lia).
    rewrite E1, E2 in E. unfold bind, randomInt in E.
    destruct (intFeed w); [discriminate|].
    destruct ((0 <=? z) && (z <? max)); discriminate.
  - split; [lia|]. unfold Checked.randomInt in E.
    rewrite (safe_in_range max) in E by lia.
    change (negb (isSafeInteger 0)) with false in E. cbn [negb] in E.
    assert (E1 : (max <=? 0) = false) by (apply Z.leb_gt; lia).
    assert (E2 : (randMax <? max - 0) = false) by (apply Z.ltb_ge; lia).
    rewrite E1, E2 in E. unfold bind, randomInt in E.
    destruct (intFeed w) as [|k rest]; [exact I|].
    destruct ((0 <=? k) && (k <? max)) eqn:B; [discriminate|].
    apply andb_false_iff in B. rewrite Z.leb_gt, Z.ltb_ge in B. lia.
Qed.


Section Hash.
Variable H : list byte -> string -> string.



End Hash.
End CheckedFacts.

(** C5. On a generator just built, [getSecretKey] throws (the key is
    [null]: this is the failure the specification calls InvalidState); after
    a call of [generateRandom] that returned, it gives the key that call drew,
    in lowercase hexadecimal, and a later [generateUniformRandom] does not
    change that. *)
Theorem getSecretKey_needs_a_commit (H : list byte -> string -> string) :
  (forall keys ints,
     getSecretKey (newGenerator keys ints)
     = (Throw (JS.TypeError "Cannot read properties of null (reading 'toString')"),
        newGenerator keys ints)) /\
  (forall max w c w',
     generateRandom H max w = (Val c, w') ->
     exists key keys,
       bytesFeed w = key :: keys /\
       getSecretKey w' = (Val (JS.hex key), w') /\
       lowercaseHex (JS.hex key) = true /\
       forall max' n w'',
         generateUniformRandom max' w' = (Val n, w'') ->
         getSecretKey w'' = (Val (JS.hex key), w'')).
Proof.
  split; [reflexivity|].
  intros max w c w' E.
  apply GeneratorFacts.generateRandom_inv in E.
  destruct E as [key [keys [Ew [_ [Es _]]]]].
  exists key, keys. split; [exact Ew|]. split; [|split].
  - unfold getSecretKey. now rewrite Es.
  - apply GeneratorFacts.hex_lowercase.
  - intros max' n w'' L. apply GeneratorFacts.uniformLoop_frame in L.
    destruct L as [Ls _]. unfold getSecretKey. now rewrite Ls, Es.
Qed.

Lemma getSecretKey_needs_a_commit_witness :
  exists w',
    generateRandom tagHmac 6 (newGenerator [key1; key2] [4; 0])
    = (Val {| randomNumber := 4; hmac := tagHmac key1 "4" |}, w') /\
    getSecretKey w'
    = (Val "0101010101010101010101010101010101010101010101010101010101010101", w').
Proof.
  eexists. split; [vm_compute; reflexivity|].
  destruct (proj2 (getSecretKey_needs_a_commit tagHmac) 6
                  (newGenerator [key1; key2] [4; 0]) _ _ eq_refl)
    as [key [keys [Ew [Eg _]]]].
  injection Ew as <- <-. exact Eg.
Defined.






(* ================================================================= *)
(** ** The prompts *)

Module PromptFacts.

Section Hash.
Variable H : list byte -> string -> string.

Lemma invalidGuess_cases (userInput : string) :
  invalidGuess userInput = true ->
  isExit userInput = false /\
  (JS.parseInt userInput = None \/
   exists n, JS.parseInt userInput = Some n /\ (n <? 0) || (n >? 1) = true).
Proof.
  unfold invalidGuess. intros E. apply andb_true_iff in E. destruct E as [Ex Ep].
  apply negb_true_iff in Ex. split; [exact Ex|].
  destruct (JS.parseInt userInput) as [n|]; [right; eauto | now left].
Qed.

Lemma invalidContribution_cases (userInput : string) (range : Z) :
  invalidContribution userInput range = true ->
  isExit userInput = false /\
  (JS.parseInt userInput = None \/
   exists n, JS.parseInt userInput = Some n /\ (n <? 0) || (n >=? range) = true).
Proof.
  unfold invalidContribution. intros E. apply andb_true_iff in E. destruct E as [Ex Ep].
  apply negb_true_iff in Ex. split; [exact Ex|].
  destruct (JS.parseInt userInput) as [n|]; [right; eauto | now left].
Qed.

(** [determineFirstMove] with a key and a bit at hand. *)
Lemma determineFirstMove_draw (sk : option (list byte)) (key : list byte)
      (keys : list (list byte)) (n : Z) (ints : list Z) (out : list Msg) :
  n < 2 ->
  determineFirstMove H
    {| secretKey := sk; bytesFeed := key :: keys; intFeed := n :: ints; console := out |}
  = (Val (AtFirstMove n (H key (JS.toString n))),
     {| secretKey := Some key; bytesFeed := keys; intFeed := ints;
        console := out ++ [LetsDetermine; ISelected 1 (H key (JS.toString n))] |}).
Proof.
  intros Hn. unfold determineFirstMove, bind, log at 1.
  cbn [bytesFeed secretKey intFeed console].
  pose proof (GeneratorFacts.generateRandom_first_below H 2 [] n ints sk key keys
                (out ++ [LetsDetermine]) (Forall_nil _) Hn) as E.
  cbn [app] in E. rewrite E. unfold log, ret. cbn.
  now rewrite <- app_assoc.
Qed.

(** The first-move prompt answered by a refused guess: the function starts
    over. *)
Lemma firstMove_refused (g : Game) (randomNumber : Z) (digest userInput : string)
      (w : World) :
  invalidGuess userInput = true ->
  resume H g (AtFirstMove randomNumber digest) userInput w
  = (log InvalidGuess ;; p <- determineFirstMove H ;; ret (Await p)) w.
Proof.
  intros Hbad. apply invalidGuess_cases in Hbad. destruct Hbad as [Ex Hp].
  unfold resume, firstMoveAnswered. rewrite Ex.
  assert (Again :
    bind (log InvalidGuess ;; p <- determineFirstMove H ;; ret (inl p))
         (fun r : Pending + bool =>
            match r with
            | inl p' => ret (Await p')
            | inr userGoesFirst => ret (Await (AtChooseDice userGoesFirst))
            end) w
    = (log InvalidGuess ;; p <- determineFirstMove H ;; ret (Await p)) w).
  { unfold bind, log.
    destruct (determineFirstMove H _) as [[p| | |] w1]; reflexivity. }
  destruct Hp as [Ep | [n [Ep Hn]]]; rewrite Ep; [exact Again|].
  rewrite Hn. exact Again.
Qed.

(** A modular-contribution prompt answered by a refused line. *)
Lemma hostThrow_refused (g : Game) (userGoesFirst : bool)
      (userDiceIndex computerDiceIndex computerThrow : Z) (computerHMAC userInput : string)
      (d : Dice) (w : World) :
  at_ (dice g) computerDiceIndex = Some d ->
  invalidContribution userInput (len (faces d)) = true ->
  resume H g (AtHostThrow userGoesFirst userDiceIndex computerDiceIndex computerThrow
                          computerHMAC) userInput w
  = (Val (Await (AtChooseDice userGoesFirst)), printed w [InvalidNumber]).
Proof.
  intros Hd Hbad. apply invalidContribution_cases in Hbad. destruct Hbad as [Ex Hp].
  unfold resume, hostThrowAnswered. rewrite Ex.
  destruct Hp as [Ep | [n [Ep Hn]]]; rewrite Ep; [reflexivity|].
  destruct (n <? 0) eqn:Neg; [reflexivity|].
  simpl in Hn. unfold diceAt. rewrite Hd. unfold bind at 1, ret at 1.
  rewrite Hn. reflexivity.
Qed.

Lemma playerThrow_refused (g : Game) (userGoesFirst : bool)
      (userDiceIndex computerDiceIndex : Z) (computerRoll : option JS.number)
      (userThrow : Z) (userHMAC userInput : string) (d : Dice) (w : World) :
  at_ (dice g) userDiceIndex = Some d ->
  invalidContribution userInput (len (faces d)) = true ->
  resume H g (AtPlayerThrow userGoesFirst userDiceIndex computerDiceIndex computerRoll
                            userThrow userHMAC) userInput w
  = (Val (Await (AtChooseDice userGoesFirst)), printed w [InvalidNumber]).
Proof.
  intros Hd Hbad. apply invalidContribution_cases in Hbad. destruct Hbad as [Ex Hp].
  unfold resume, playerThrowAnswered. rewrite Ex.
  destruct Hp as [Ep | [n [Ep Hn]]]; rewrite Ep; [reflexivity|].
  destruct (n <? 0) eqn:Neg; [reflexivity|].
  simpl in Hn. unfold diceAt. rewrite Hd. unfold bind at 1, ret at 1.
  rewrite Hn. reflexivity.
Qed.

End Hash.
End PromptFacts.

(** C3, as the script has it. At either modular-contribution prompt, a line
    that is not an exit request and that [parseInt] reads as [NaN], as a
    negative number or as a number not below the number of faces makes the
    script print "Invalid input. Please choose a valid number." and go back
    to the die-choice prompt: the round is given up, its dice and its
    commitment are no longer part of the state, the key is not revealed, and
    nothing is taken from the random source by this step. *)
Theorem invalid_contribution_abandons_round (H : list byte -> string -> string)
    (g : Game) (userGoesFirst : bool) (userDiceIndex computerDiceIndex : Z)
    (userInput : string) (w : World) :
  (forall computerThrow computerHMAC d,
     at_ (dice g) computerDiceIndex = Some d ->
     invalidContribution userInput (len (faces d)) = true ->
     resume H g (AtHostThrow userGoesFirst userDiceIndex computerDiceIndex
                             computerThrow computerHMAC) userInput w
     = (Val (Await (AtChooseDice userGoesFirst)), printed w [InvalidNumber])) /\
  (forall computerRoll userThrow userHMAC d,
     at_ (dice g) userDiceIndex = Some d ->
     invalidContribution userInput (len (faces d)) = true ->
     resume H g (AtPlayerThrow userGoesFirst userDiceIndex computerDiceIndex
                               computerRoll userThrow userHMAC) userInput w
     = (Val (Await (AtChooseDice userGoesFirst)), printed w [InvalidNumber])).
Proof.
  split; intros.
  - eapply PromptFacts.hostThrow_refused; eassumption.
  - eapply PromptFacts.playerThrow_refused; eassumption.
Qed.

Lemma invalid_contribution_abandons_round_witness :
  resume tagHmac scenario (AtHostThrow false 2 0 5 "digest") "9"
         {| secretKey := Some key2; bytesFeed := [key3]; intFeed := [1; 3]; console := [] |}
  = (Val (Await (AtChooseDice false)),
     {| secretKey := Some key2; bytesFeed := [key3]; intFeed := [1; 3];
        console := [InvalidNumber] |}).
Proof.
  apply (proj1 (invalid_contribution_abandons_round tagHmac scenario false 2 0 "9"
                  {| secretKey := Some key2; bytesFeed := [key3]; intFeed := [1; 3];
                     console := [] |}) 5 "digest" ones).
  - reflexivity.
  - vm_compute. reflexivity.
Defined.

(** C3 as stated fails: after the refused line ["9"] at the host's throw the
    script is at the die-choice prompt, not at the prompt it was at, and the
    next round picks a die and commits to a value anew. *)
Lemma invalid_contribution_counterexample :
  fst (main tagHmac scenarioArgs ["0"; "2"] [key1; key2; key3] [1; 0; 5; 1; 3])
  = Waiting (AtHostThrow false 2 0 5 (tagHmac key2 "5")) /\
  fst (main tagHmac scenarioArgs ["0"; "2"; "9"] [key1; key2; key3] [1; 0; 5; 1; 3])
  = Waiting (AtChooseDice false) /\
  fst (main tagHmac scenarioArgs ["0"; "2"; "9"; "2"] [key1; key2; key3] [1; 0; 5; 1; 3])
  = Waiting (AtHostThrow false 2 1 3 (tagHmac key3 "3")).
Proof. vm_compute. repeat split. Qed.

(** C4, as the script has it. At the first-move prompt, a line that is not
    an exit request and that [parseInt] reads as [NaN] or as a number other
    than 0 and 1 makes the script print "Invalid input. Please choose 0 or
    1." and run [determineFirstMove] from its start: a new key and a new
    value are drawn, the new digest is printed, and the prompt now waits on
    the new commitment; the earlier one is never revealed. *)
Theorem invalid_guess_commits_anew (H : list byte -> string -> string) (g : Game)
    (randomNumber : Z) (digest userInput : string) (sk : option (list byte))
    (key : list byte) (keys : list (list byte)) (n : Z) (ints : list Z)
    (out : list Msg) :
  invalidGuess userInput = true -> n < 2 ->
  resume H g (AtFirstMove randomNumber digest) userInput
    {| secretKey := sk; bytesFeed := key :: keys; intFeed := n :: ints; console := out |}
  = (Val (Await (AtFirstMove n (H key (JS.toString n)))),
     {| secretKey := Some key; bytesFeed := keys; intFeed := ints;
        console := out ++ [InvalidGuess; LetsDetermine;
                           ISelected 1 (H key (JS.toString n))] |}).
Proof.
  intros Hbad Hn. rewrite PromptFacts.firstMove_refused by assumption.
  unfold bind at 1, log at 1. cbn [bytesFeed secretKey intFeed console].
  unfold bind. rewrite PromptFacts.determineFirstMove_draw by assumption.
  unfold ret. now rewrite <- app_assoc.
Qed.

Lemma invalid_guess_commits_anew_witness :
  resume tagHmac scenario (AtFirstMove 1 (tagHmac key1 "1")) "?"
    {| secretKey := Some key1; bytesFeed := [key2]; intFeed := [0]; console := [] |}
  = (Val (Await (AtFirstMove 0 (tagHmac key2 "0"))),
     {| secretKey := Some key2; bytesFeed := []; intFeed := [];
        console := [InvalidGuess; LetsDetermine; ISelected 1 (tagHmac key2 "0")] |}).
Proof.
  apply (invalid_guess_commits_anew tagHmac scenario 1 (tagHmac key1 "1") "?"
           (Some key1) key2 [] 0 [] []).
  - vm_compute. reflexivity.
  - lia.
Defined.

(** C4 as stated fails: the commitment the prompt waits on after the refused
    guess ["7"] is not the one it waited on before; value and digest both
    differ. *)
Lemma invalid_guess_counterexample :
  fst (main tagHmac scenarioArgs [] [key1; key2] [1; 0])
  = Waiting (AtFirstMove 1 (tagHmac key1 "1")) /\
  fst (main tagHmac scenarioArgs ["7"] [key1; key2] [1; 0])
  = Waiting (AtFirstMove 0 (tagHmac key2 "0")) /\
  1 <> 0 /\ tagHmac key1 "1" <> tagHmac key2 "0".
Proof. vm_compute. repeat split; discriminate. Qed.

(* ================================================================= *)
(** ** What a stretch of the script can print *)

Module Silence.

Section Kind.
(** The kind of message looked for. *)
Variable kind : Msg -> bool.

Lemma silent_same {A} (m : M A) :
  (forall w, console (snd (m w)) = console w) -> silent kind m.
Proof. intros E w. exists []. now rewrite E, app_nil_r. Qed.

Lemma silent_ret {A} (a : A) : silent kind (ret a).
Proof. now apply silent_same. Qed.

Lemma silent_throw {A} (e : JS.error) : silent kind (@throw A e).
Proof. now apply silent_same. Qed.

Lemma silent_processExit {A} (c : Z) : silent kind (@processExit A c).
Proof. now apply silent_same. Qed.

Lemma silent_log (m : Msg) : kind m = false -> silent kind (log m).
Proof. intros E w. exists [m]. simpl. now rewrite E. Qed.

Lemma silent_bind {A B} (m : M A) (k : A -> M B) :
  silent kind m -> (forall a, silent kind (k a)) -> silent kind (bind m k).
Proof.
  intros Hm Hk w. unfold bind. destruct (Hm w) as [ms1 [E1 Q1]].
  destruct (m w) as [[a| | |] w1]; cbn [snd] in *;
    try (exists ms1; now split).
  destruct (Hk a w1) as [ms2 [E2 Q2]].
  exists (ms1 ++ ms2). rewrite E2, E1, <- app_assoc. split; [reflexivity|].
  rewrite existsb_app, Q1, Q2. reflexivity.
Qed.

Lemma silent_randomBytes (size : Z) : silent kind (randomBytes size).
Proof. apply silent_same. intros w. unfold randomBytes. now destruct (bytesFeed w). Qed.

Lemma silent_randomInt (lo hi : Z) : silent kind (randomInt lo hi).
Proof. apply silent_same. intros w. unfold randomInt. now destruct (intFeed w). Qed.

Lemma silent_setSecretKey (key : list byte) : silent kind (setSecretKey key).
Proof. now apply silent_same. Qed.

Lemma silent_getSecretKey : silent kind getSecretKey.
Proof. apply silent_same. intros w. unfold getSecretKey. now destruct (secretKey w). Qed.

Lemma silent_resolveIdentifier (name : string) : silent kind (resolveIdentifier name).
Proof.
  unfold resolveIdentifier.
  destruct (existsb _ _); [apply silent_ret | apply silent_throw].
Qed.

Lemma silent_uniformLoop (max : Z) (fuel : nat) : silent kind (uniformLoop max fuel).
Proof.
  induction fuel as [|fuel IH]; simpl.
  - now apply silent_same.
  - apply silent_bind; [apply silent_randomInt|].
    intros num. destruct (num >=? max); [exact IH | apply silent_ret].
Qed.

Lemma silent_generateUniformRandom (max : Z) : silent kind (generateUniformRandom max).
Proof. intros w. unfold generateUniformRandom. apply silent_uniformLoop. Qed.

Variable H : list byte -> string -> string.

Lemma silent_generateHMAC (message : Z) : silent kind (generateHMAC H message).
Proof. apply silent_same. intros w. unfold generateHMAC. now destruct (secretKey w). Qed.

Lemma silent_diceAt (g : Game) (i : Z) : silent kind (diceAt g i).
Proof. unfold diceAt. destruct (at_ _ _); [apply silent_ret | apply silent_throw]. Qed.

Lemma silent_generateRandom (max : Z) : silent kind (generateRandom H max).
Proof.
  unfold generateRandom.
  apply silent_bind; [apply silent_randomBytes | intros key].
  apply silent_bind; [apply silent_setSecretKey | intros _].
  apply silent_bind; [apply silent_generateUniformRandom | intros n].
  apply silent_bind; [apply silent_generateHMAC | intros d].
  apply silent_ret.
Qed.

End Kind.

(** One step of the case analysis of a stretch of script. *)
Ltac step :=
  match goal with
  | |- silent _ (bind _ _) => apply silent_bind; [|intros ?]
  | |- silent _ (ret _) => apply silent_ret
  | |- silent _ (throw _) => apply silent_throw
  | |- silent _ (processExit _) => apply silent_processExit
  | |- silent _ (log _) => apply silent_log; reflexivity
  | |- silent _ getSecretKey => apply silent_getSecretKey
  | |- silent _ (diceAt _ _) => apply silent_diceAt
  | |- silent _ (generateRandom _ _) => apply silent_generateRandom
  | |- silent _ (generateUniformRandom _) => apply silent_generateUniformRandom
  | |- silent _ (if ?b then _ else _) => destruct b
  | |- silent _ (match ?x with _ => _ end) => destruct x
  end.

Section Handlers.
Variable H : list byte -> string -> string.
Variable g : Game.

Lemma outcome_determineFirstMove : silent isOutcome (determineFirstMove H).
Proof. unfold determineFirstMove. repeat step. Qed.


Lemma outcome_playStart : silent isOutcome (playStart H).
Proof.
  unfold playStart. do 3 step; try apply outcome_determineFirstMove. repeat step.
Qed.

Lemma outcome_firstMove (randomNumber : Z) (userInput : string) :
  silent isOutcome (firstMoveAnswered H randomNumber userInput).
Proof.
  unfold firstMoveAnswered. cbv zeta.
  repeat first [apply outcome_determineFirstMove | step].
Qed.

Lemma outcome_chooseDice (userGoesFirst : bool) (userInput : string) :
  silent isOutcome (chooseDiceAnswered H g userGoesFirst userInput).
Proof. unfold chooseDiceAnswered. cbv zeta. repeat step. Qed.

Lemma outcome_hostThrow (userGoesFirst : bool) (ui ci ct : Z) (userInput : string) :
  silent isOutcome (hostThrowAnswered H g userGoesFirst ui ci ct userInput).
Proof. unfold hostThrowAnswered. cbv zeta. repeat step. Qed.

(** After the key is revealed the stretch stops at the tag [o]: what follows
    it, the comparison included, is never run. *)
Lemma tag_o_throws {A} (k : unit -> M A) (w : World) :
  bind (resolveIdentifier "o") k w = (Throw (JS.ReferenceError "o is not defined"), w).
Proof. reflexivity. Qed.

Lemma outcome_playerThrow (userGoesFirst : bool) (ui : Z)
      (computerRoll : option JS.number) (ut : Z) (userInput : string) :
  silent isOutcome (playerThrowAnswered g userGoesFirst ui computerRoll ut userInput).
Proof.
  unfold playerThrowAnswered. cbv zeta.
  repeat first
    [ match goal with
      | |- silent _ (bind (resolveIdentifier "o") _) =>
          apply silent_same; intros w; now rewrite tag_o_throws
      end
    | step ].
Qed.

Lemma outcome_resume (p : Pending) (userInput : string) :
  silent isOutcome (resume H g p userInput).
Proof.
  destruct p; simpl.
  - apply silent_bind; [apply outcome_firstMove|]. intros [p'|b]; apply silent_ret.
  - apply outcome_chooseDice.
  - apply outcome_hostThrow.
  - apply outcome_playerThrow.
Qed.

Lemma outcome_run (inputs : list string) (p : Pending) (w : World) :
  exists ms, console (snd (run H g p inputs w)) = console w ++ ms
             /\ existsb isOutcome ms = false.
Proof.
  revert p w. induction inputs as [|userInput rest IH]; intros p w; simpl.
  - exists []. now rewrite app_nil_r.
  - destruct (outcome_resume p userInput w) as [ms1 [E1 Q1]].
    destruct (resume H g p userInput w) as [[[p'|]| | |] w1]; cbn [snd] in *;
      try (exists ms1; now split).
    destruct (IH p' w1) as [ms2 [E2 Q2]].
    exists (ms1 ++ ms2). rewrite E2, E1, <- app_assoc. split; [reflexivity|].
    rewrite existsb_app, Q1, Q2. reflexivity.
Qed.

End Handlers.
End Silence.

(* ================================================================= *)
(** ** Rounds *)

(** The last stretch of a round on a contribution the guards accept: the key
    is revealed, then reading the tag [o] of l.287 throws. *)
Lemma playerThrow_accepted_throws (g : Game) (userGoesFirst : bool) (userDiceIndex : Z)
      (computerRoll : option JS.number) (userThrow : Z) (userInput : string)
      (d : Dice) (n : Z) (key : list byte) (w : World) :
  isExit userInput = false -> JS.parseInt userInput = Some n ->
  at_ (dice g) userDiceIndex = Some d -> 0 <= n < len (faces d) ->
  secretKey w = Some key ->
  playerThrowAnswered g userGoesFirst userDiceIndex computerRoll userThrow userInput w
  = (Throw (JS.ReferenceError "o is not defined"),
     printed w [MyNumberIs userThrow (JS.hex key)]).
Proof.
  intros Ex Ep Hd Hn Hk. unfold playerThrowAnswered. rewrite Ex, Ep.
  assert (N0 : (n <? 0) = false) by (apply Z.ltb_ge; lia).
  assert (N1 : (n >=? len (faces d)) = false) by (rewrite Z.geb_leb; apply Z.leb_gt; lia).
  rewrite N0. unfold diceAt. rewrite Hd. unfold bind at 1, ret at 1. rewrite N1.
  unfold bind at 1, getSecretKey. rewrite Hk.
  unfold bind at 1, log at 1. now rewrite Silence.tag_o_throws.
Qed.



(** C1, on the script. No session prints the outcome of a round, whatever
    the arguments, the lines typed and the random values: the comparison of
    l.293-299 comes after the template of l.287, whose tag [o] is bound
    nowhere.  In the scenario of three constant dice, the user playing the
    third die against the first with accepted contributions, the session
    ends on that exception right after the key of the second throw is
    revealed. *)
Theorem no_session_prints_an_outcome :
  (forall H argv inputs keys ints,
     existsb isOutcome (console (snd (main H argv inputs keys ints))) = false) /\
  main tagHmac scenarioArgs ["0"; "2"; "3"; "4"] [key1; key2; key3] [1; 0; 5; 2]
  = (Rejected (JS.ReferenceError "o is not defined"),
     {| secretKey := Some key3; bytesFeed := []; intFeed := [];
        console :=
          [Welcome; TypeHelp; LetsDetermine; ISelected 1 (tagHmac key1 "1");
           MySelection 1 (JS.hex key1); IMakeFirstMove;
           YouChose (faces twos); IChoose (faces ones); TimeForMyThrow;
           ISelected 5 (tagHmac key2 "5"); MyNumberIs 5 (JS.hex key2);
           TheResultIs 5 3 2 6; MyThrowIs (Some (JS.Num 1)); TimeForYourThrow;
           ISelected 5 (tagHmac key3 "2"); MyNumberIs 2 (JS.hex key3)] |}).
Proof.
  split; [|vm_compute; reflexivity].
  intros H argv inputs keys ints. unfold main.
  destruct (DiceParser.parseDice argv) as [e|ds]; [reflexivity|].
  unfold play.
  destruct (Silence.outcome_playStart H (newGenerator keys ints)) as [ms1 [E1 Q1]].
  destruct (playStart H (newGenerator keys ints)) as [[[p|]| | |] w1];
    cbn [snd newGenerator console app] in *; try (rewrite E1; exact Q1).
  destruct (Silence.outcome_run H {| dice := ds |} inputs p w1) as [ms2 [E2 Q2]].
  rewrite E2, E1, existsb_app, Q1, Q2. reflexivity.
Qed.

(* ================================================================= *)
(** ** Start-up *)

(** Fewer than three arguments are refused. *)
Lemma parseDice_too_few (args : list string) :
  (List.length args < 3)%nat ->
  DiceParser.parseDice args = inl (JS.Error DiceParser.tooFew).
Proof.
  intros Hl. unfold DiceParser.parseDice, len.
  assert (E : (Z.of_nat (List.length args) <? 3) = true) by (apply Z.ltb_lt; lia).
  now rewrite E.
Qed.

(** C8, on the script. [parseDice] refuses fewer than three arguments and a
    face that [Number] reads as [NaN]; but it takes ["1.5"] as the face
    [1.5], which is no integer, and the empty argument as a die with the one
    face [0], and a game is started on such dice. *)
Theorem parseDice_accepts_fraction_and_empty :
  DiceParser.parseDice ["1,2,3"; "4,5,6"] = inl (JS.Error DiceParser.tooFew) /\
  DiceParser.parseDice ["1,2,x"; "1,2,3"; "4,5,6"]
  = inl (JS.Error "Invalid dice configuration at argument 1: Only integers are allowed.") /\
  DiceParser.parseDice ["1.5,2,3"; "1,2,3"; "4,5,6"]
  = inr [ {| faces := [JS.Num (3 # 2); JS.Num 2; JS.Num 3] |};
          {| faces := [JS.Num 1; JS.Num 2; JS.Num 3] |};
          {| faces := [JS.Num 4; JS.Num 5; JS.Num 6] |} ] /\
  JS.isInteger (JS.Num (3 # 2)) = false /\
  DiceParser.parseDice [""; "1,2"; "3,4"]
  = inr [ {| faces := [JS.Num 0] |};
          {| faces := [JS.Num 1; JS.Num 2] |};
          {| faces := [JS.Num 3; JS.Num 4] |} ] /\
  fst (main tagHmac ["1.5,2,3"; "1,2,3"; "4,5,6"] [] [key1] [0])
  = Waiting (AtFirstMove 0 (tagHmac key1 "0")) /\
  fst (main tagHmac [""; "1,2"; "3,4"] [] [key1] [0])
  = Waiting (AtFirstMove 0 (tagHmac key1 "0")).
Proof. vm_compute. repeat split. Qed.

(* ================================================================= *)
(** ** The question mark *)



(* ================================================================= *)
(** ** More on the rounds *)

(** The host's throw, l.234-254, on a contribution the guards accept: the
    key of the outstanding commitment is revealed, the result is the sum of
    the committed value and the contribution modulo the number of faces, the
    roll is the face at that index, and a new commitment is made for the
    player's throw before the next prompt. *)
Theorem hostThrow_accepted (H : list byte -> string -> string) (g : Game)
    (userGoesFirst : bool) (userDiceIndex computerDiceIndex computerThrow : Z)
    (userInput : string) (n : Z) (computerDice userDice : Dice)
    (key0 key : list byte) (keys : list (list byte)) (m : Z) (ints : list Z)
    (out : list Msg) :
  isExit userInput = false -> JS.parseInt userInput = Some n ->
  at_ (dice g) computerDiceIndex = Some computerDice ->
  at_ (dice g) userDiceIndex = Some userDice ->
  0 <= n < len (faces computerDice) ->
  0 <= computerThrow < len (faces computerDice) ->
  m < len (faces userDice) ->
  let range := len (faces computerDice) in
  let result := (computerThrow + n) mod range in
  hostThrowAnswered H g userGoesFirst userDiceIndex computerDiceIndex computerThrow
    userInput
    {| secretKey := Some key0; bytesFeed := key :: keys; intFeed := m :: ints;
       console := out |}
  = (Val (Await (AtPlayerThrow userGoesFirst userDiceIndex computerDiceIndex
                               (at_ (faces computerDice) result) m
                               (H key (JS.toString m)))),
     {| secretKey := Some key; bytesFeed := keys; intFeed := ints;
        console := out ++ [MyNumberIs computerThrow (JS.hex key0);
                           TheResultIs computerThrow n result range;
                           MyThrowIs (at_ (faces computerDice) result);
                           TimeForYourThrow;
                           ISelected (len (faces userDice) - 1) (H key (JS.toString m))] |}).
Proof.
  intros Ex Ep Hc Hu Hn Hct Hm range result.
  unfold hostThrowAnswered. rewrite Ex, Ep.
  assert (N0 : (n <? 0) = false) by (apply Z.ltb_ge; lia).
  assert (N1 : (n >=? len (faces computerDice)) = false)
    by (rewrite Z.geb_leb; apply Z.leb_gt; lia).
  assert (R : modularSum computerThrow n (len (faces computerDice)) = result).
  { unfold modularSum, result, range. apply Z.rem_mod_nonneg; lia. }
  rewrite N0. unfold diceAt. rewrite Hc, Hu. unfold bind at 1, ret at 1. rewrite N1, R.
  unfold bind, log, getSecretKey, ret. cbn [secretKey bytesFeed intFeed console].
  pose proof (GeneratorFacts.generateRandom_first_below H (len (faces userDice)) [] m
                ints (Some key0) key keys
                ((((out ++ [MyNumberIs computerThrow (JS.hex key0)])
                   ++ [TheResultIs computerThrow n result (len (faces computerDice))])
                  ++ [MyThrowIs (at_ (faces computerDice) result)])
                 ++ [TimeForYourThrow]) (Forall_nil _) Hm) as E.
  cbn [app] in E. rewrite E. cbn [secretKey bytesFeed intFeed console hmac randomNumber].
  unfold range. rewrite <- !app_assoc. reflexivity.
Qed.

Lemma hostThrow_accepted_witness :
  hostThrowAnswered tagHmac scenario false 2 0 5 "3"
    {| secretKey := Some key2; bytesFeed := [key3]; intFeed := [2]; console := [] |}
  = (Val (Await (AtPlayerThrow false 2 0 (Some (JS.Num 1)) 2 (tagHmac key3 "2"))),
     {| secretKey := Some key3; bytesFeed := []; intFeed := [];
        console := [MyNumberIs 5 (JS.hex key2); TheResultIs 5 3 2 6;
                    MyThrowIs (Some (JS.Num 1)); TimeForYourThrow;
                    ISelected 5 (tagHmac key3 "2")] |}).
Proof.
  apply (hostThrow_accepted tagHmac scenario false 2 0 5 "3" 3 ones twos key2 key3 [] 2
           [] []); try reflexivity; vm_compute; intuition discriminate.
Defined.

Lemma playerThrow_accepted_throws_witness :
  playerThrowAnswered scenario false 2 (Some (JS.Num 1)) 2 "4"
    {| secretKey := Some key3; bytesFeed := []; intFeed := []; console := [] |}
  = (Throw (JS.ReferenceError "o is not defined"),
     {| secretKey := Some key3; bytesFeed := []; intFeed := [];
        console := [MyNumberIs 2 (JS.hex key3)] |}).
Proof.
  apply (playerThrow_accepted_throws scenario false 2 (Some (JS.Num 1)) 2 "4" twos 4
           key3); try reflexivity.
  vm_compute. intuition discriminate.
Defined.


(* ================================================================= *)
(** ** Numbers and their decimal text *)

Module TextFacts.

Lemma digits_step (c : ascii) (r : list ascii) (acc : Z) (n : nat) (d : Z) :
  JS.digitValue c = Some d -> (d <? 10) = true ->
  JS.digits 10 (c :: r) acc n = JS.digits 10 r (acc * 10 + d) (S n).
Proof. intros E L. cbn [JS.digits]. now rewrite E, L. Qed.

Lemma digits_uintChars (d : Decimal.uint) (acc : Z) (n : nat) :
  JS.digits 10 (uintChars d) acc n
  = (uintValue d acc, (n + Decimal.nb_digits d)%nat, []).
Proof.
  unfold uintChars. revert acc n.
  induction d; intros acc n; cbn [NilEmpty.string_of_uint list_ascii_of_string
                                   Decimal.nb_digits uintValue];
    [ cbn; now rewrite Nat.add_0_r | .. ];
    (erewrite digits_step by reflexivity; rewrite IHd;
     match goal with
     | |- context [JS.code ?c - 48] =>
         let v := eval vm_compute in (JS.code c - 48) in
         change (JS.code c - 48) with v
     end;
     rewrite ?Z.add_0_r; f_equal; f_equal; lia).
Qed.

Lemma uintValue_pos (d : Decimal.uint) (acc : positive) :
  uintValue d (Z.pos acc) = Z.pos (Pos.of_uint_acc d acc).
Proof.
  revert acc. induction d; intros acc; cbn [uintValue Pos.of_uint_acc];
    [reflexivity | ..];
    match goal with
    | |- uintValue _ ?z = Z.pos (Pos.of_uint_acc _ ?p) =>
        replace z with (Z.pos p) by lia; apply IHd
    end.
Qed.

Lemma uintValue_zero (d : Decimal.uint) : uintValue d 0 = Z.of_N (Pos.of_uint d).
Proof.
  induction d; cbn [uintValue Pos.of_uint]; [reflexivity | exact IHd | ..];
    (change (0 * 10 + ?k) with k; rewrite uintValue_pos; reflexivity).
Qed.

Lemma uintChars_digits (d : Decimal.uint) :
  Forall (fun c => isDecimalDigit c = true) (uintChars d).
Proof.
  unfold uintChars.
  induction d; cbn [NilEmpty.string_of_uint list_ascii_of_string];
    constructor; (reflexivity || assumption).
Qed.

Lemma uintChars_pos (p : positive) : exists c r, uintChars (Pos.to_uint p) = c :: r.
Proof.
  pose proof (DecimalPos.Unsigned.to_uint_nonnil p) as N.
  unfold uintChars. destruct (Pos.to_uint p); [congruence | ..]; cbn; eauto.
Qed.

(** The characters of [toString z]: a minus sign for a negative number,
    then the digits of its absolute value. *)
Lemma toString_chars (z : Z) :
  exists d c r,
    uintChars d = c :: r /\ uintValue d 0 = Z.abs z /\
    list_ascii_of_string (JS.toString z)
    = if z <? 0 then "-"%char :: uintChars d else uintChars d.
Proof.
  unfold JS.toString. destruct z as [|p|p]; cbn [Z.to_int Z.ltb Z.compare].
  - exists (Decimal.D0 Decimal.Nil). cbn. eauto.
  - exists (Pos.to_uint p). destruct (uintChars_pos p) as [c [r E]].
    exists c, r. split; [exact E|]. split.
    + now rewrite uintValue_zero, DecimalPos.Unsigned.of_to.
    + unfold NilZero.string_of_int, NilZero.string_of_uint, uintChars.
      pose proof (DecimalPos.Unsigned.to_uint_nonnil p).
      destruct (Pos.to_uint p); [congruence | reflexivity ..].
  - exists (Pos.to_uint p). destruct (uintChars_pos p) as [c [r E]].
    exists c, r. split; [exact E|]. split.
    + now rewrite uintValue_zero, DecimalPos.Unsigned.of_to.
    + unfold NilZero.string_of_int, NilZero.string_of_uint, uintChars.
      pose proof (DecimalPos.Unsigned.to_uint_nonnil p).
      destruct (Pos.to_uint p); [congruence | reflexivity ..].
Qed.

Lemma digit_not_space (c : ascii) :
  isDecimalDigit c = true -> JS.isWhiteSpace c = false.
Proof.
  unfold isDecimalDigit, JS.isWhiteSpace. intros E.
  apply andb_true_iff in E. destruct E as [E1 E2].
  apply Z.leb_le in E1, E2.
  apply orb_false_iff. split.
  - apply andb_false_iff. right. apply Z.leb_gt. lia.
  - apply Z.eqb_neq. lia.
Qed.

Lemma digit_value (c : ascii) :
  isDecimalDigit c = true -> JS.digitValue c = Some (JS.code c - 48).
Proof. unfold isDecimalDigit, JS.digitValue. intros E. now rewrite E. Qed.

(** [parseInt] reads back the integer [toString] wrote. *)
Lemma parseInt_toString (z : Z) : JS.parseInt (JS.toString z) = Some z.
Proof.
  destruct (toString_chars z) as [d [c [r [Ec [Ev Es]]]]].
  pose proof (uintChars_digits d) as Hd. rewrite Ec in Hd.
  inversion Hd as [|? ? Hc Hr]; subst.
  unfold JS.parseInt. rewrite Es.
  destruct (z <? 0) eqn:Neg.
  - unfold JS.trimStart. cbn [JS.dropWhile].
    change (JS.isWhiteSpace "-"%char) with false. cbn iota.
    change (JS.code "-"%char =? 45) with true. cbn iota.
    rewrite digits_uintChars, Ev. cbn [Nat.add].
    apply Z.ltb_lt in Neg.
    destruct (Decimal.nb_digits d) eqn:Nb.
    + destruct d; cbn in Ec; try discriminate; cbn in Nb; discriminate.
    + f_equal. lia.
  - unfold JS.trimStart. rewrite Ec. cbn [JS.dropWhile].
    rewrite (digit_not_space c Hc).
    assert (C45 : (JS.code c =? 45) = false).
    { unfold isDecimalDigit in Hc. apply andb_true_iff in Hc. destruct Hc as [E1 _].
      apply Z.leb_le in E1. apply Z.eqb_neq. lia. }
    assert (C43 : (JS.code c =? 43) = false).
    { unfold isDecimalDigit in Hc. apply andb_true_iff in Hc. destruct Hc as [E1 _].
      apply Z.leb_le in E1. apply Z.eqb_neq. lia. }
    rewrite C45, C43. rewrite <- Ec, digits_uintChars, Ev.
    apply Z.ltb_ge in Neg.
    destruct (Decimal.nb_digits d) eqn:Nb.
    + destruct d; cbn in Ec; try discriminate; cbn in Nb; discriminate.
    + cbn [Nat.add]. f_equal. lia.
Qed.

Lemma dropWhile_none {A} (p : A -> bool) (l : list A) :
  Forall (fun x => p x = false) l -> JS.dropWhile p l = l.
Proof. intros F. destruct F as [|x l E _]; cbn; [reflexivity | now rewrite E]. Qed.

Lemma trim_none (l : list ascii) :
  Forall (fun c => JS.isWhiteSpace c = false) l -> JS.trim l = l.
Proof.
  intros F. unfold JS.trim, JS.trimStart.
  rewrite (dropWhile_none _ l F).
  rewrite dropWhile_none by (now apply Forall_rev).
  apply rev_involutive.
Qed.

Lemma digits_no_space (l : list ascii) :
  Forall (fun c => isDecimalDigit c = true) l ->
  Forall (fun c => JS.isWhiteSpace c = false) l.
Proof. intros F. eapply Forall_impl; [|exact F]. apply digit_not_space. Qed.

Lemma digit_code (c : ascii) : isDecimalDigit c = true -> 48 <= JS.code c <= 57.
Proof.
  unfold isDecimalDigit. intros E. apply andb_true_iff in E. destruct E as [E1 E2].
  apply Z.leb_le in E1, E2. lia.
Qed.

(** A run of digits, with or without a minus sign in front, is no literal in
    base 16, 8 or 2. *)
Lemma nonDecimal_digits (c : ascii) (r : list ascii) :
  isDecimalDigit c = true \/ c = "-"%char ->
  Forall (fun c => isDecimalDigit c = true) r ->
  JS.nonDecimalLiteral (c :: r) = None.
Proof.
  intros Hc Hr. unfold JS.nonDecimalLiteral.
  destruct r as [|p r']; [reflexivity|].
  destruct (JS.code c =? 48); [|reflexivity].
  inversion Hr as [|? ? Hp _]; subst. apply digit_code in Hp.
  assert (E1 : (JS.code p =? 120) = false) by (apply Z.eqb_neq; lia).
  assert (E2 : (JS.code p =? 88) = false) by (apply Z.eqb_neq; lia).
  assert (E3 : (JS.code p =? 111) = false) by (apply Z.eqb_neq; lia).
  assert (E4 : (JS.code p =? 79) = false) by (apply Z.eqb_neq; lia).
  assert (E5 : (JS.code p =? 98) = false) by (apply Z.eqb_neq; lia).
  assert (E6 : (JS.code p =? 66) = false) by (apply Z.eqb_neq; lia).
  now rewrite E1, E2, E3, E4, E5, E6.
Qed.

Lemma Qred_integer (v : Z) : Qred (inject_Z v) = inject_Z v.
Proof.
  unfold Qred, inject_Z.
  pose proof (Z.ggcd_gcd v 1) as G. pose proof (Z.ggcd_correct_divisors v 1) as D.
  destruct (Z.ggcd v 1) as [g [a b]]. cbn [fst snd] in *.
  rewrite Z.gcd_1_r in G. subst g. destruct D as [Da Db].
  assert (Ea : a = v) by lia. assert (Eb : b = 1) by lia. rewrite Ea, Eb. reflexivity.
Qed.

(** An unsigned run of digits read as a literal. *)
Lemma unsignedLiteral_digits (negative : bool) (d : Decimal.uint) (c : ascii)
      (r : list ascii) :
  uintChars d = c :: r ->
  JS.unsignedLiteral negative (uintChars d)
  = JS.Num (inject_Z (if negative then - uintValue d 0 else uintValue d 0)).
Proof.
  intros Ec. pose proof (uintChars_digits d) as Hd. rewrite Ec in Hd.
  inversion Hd as [|? ? Hc Hr]; subst.
  unfold JS.unsignedLiteral, JS.ascii_list_eqb. rewrite Ec at 1.
  cbn [string_of_list_ascii list_ascii_of_string String.eqb].
  assert (NI : Ascii.eqb c "I"%char = false).
  { apply Ascii.eqb_neq. intros ->. discriminate Hc. }
  rewrite NI. cbn [andb].
  unfold JS.decimalLiteral. rewrite digits_uintChars.
  cbn [Nat.add JS.exponentPart].
  destruct (Decimal.nb_digits d) eqn:Nb.
  { destruct d; cbn in Ec; try discriminate; cbn in Nb; discriminate. }
  cbn [Nat.add Z.of_nat Z.sub Z.opp Z.add Qpower].
  assert (E : Qred (inject_Z (uintValue d 0) * 1) = inject_Z (uintValue d 0)).
  { unfold Qmult. cbn [Qnum Qden inject_Z Pos.mul]. rewrite Z.mul_1_r.
    apply Qred_integer. }
  rewrite E. destruct negative; [|reflexivity].
  f_equal. apply (Qred_integer (- uintValue d 0)).
Qed.

(** [Number] reads back the integer [toString] wrote. *)
Lemma Number_toString (z : Z) : JS.Number (JS.toString z) = JS.ofZ z.
Proof.
  destruct (toString_chars z) as [d [c [r [Ec [Ev Es]]]]].
  pose proof (uintChars_digits d) as Hd.
  unfold JS.Number, JS.ofZ. rewrite Es.
  destruct (z <? 0) eqn:Neg.
  - rewrite trim_none
      by (constructor; [reflexivity | now apply digits_no_space]).
    rewrite nonDecimal_digits by (auto).
    change (JS.code "-"%char =? 45) with true. cbn iota.
    rewrite (unsignedLiteral_digits true d c r Ec), Ev.
    apply Z.ltb_lt in Neg. do 2 f_equal. lia.
  - rewrite trim_none by (now apply digits_no_space).
    rewrite Ec. rewrite Ec in Hd. inversion Hd as [|? ? Hc Hr]; subst.
    rewrite nonDecimal_digits by (auto).
    pose proof (digit_code c Hc) as Cc.
    assert (C45 : (JS.code c =? 45) = false) by (apply Z.eqb_neq; lia).
    assert (C43 : (JS.code c =? 43) = false) by (apply Z.eqb_neq; lia).
    rewrite C45, C43, <- Ec.
    rewrite (unsignedLiteral_digits false d c r Ec), Ev.
    apply Z.ltb_ge in Neg. do 2 f_equal. lia.
Qed.

End TextFacts.

(* ================================================================= *)
(** ** Arguments *)

Module ArgumentFacts.

Lemma chars_app (a b : string) :
  list_ascii_of_string (a ++ b) = list_ascii_of_string a ++ list_ascii_of_string b.
Proof. induction a as [|c a IH]; cbn; [reflexivity | now rewrite IH]. Qed.

Lemma splitFrom_last (sep : ascii) (cs cur : list ascii) :
  Forall (fun c => Ascii.eqb c sep = false) cs ->
  JS.splitFrom sep cs cur = [string_of_list_ascii (rev cur ++ cs)].
Proof.
  intros F. revert cur. induction F as [|c cs E _ IH]; intros cur; cbn [JS.splitFrom].
  - now rewrite app_nil_r.
  - rewrite E, IH. cbn [rev]. now rewrite <- app_assoc.
Qed.

Lemma splitFrom_piece (sep : ascii) (cs1 cs2 cur : list ascii) :
  Forall (fun c => Ascii.eqb c sep = false) cs1 ->
  JS.splitFrom sep (cs1 ++ sep :: cs2) cur
  = string_of_list_ascii (rev cur ++ cs1) :: JS.splitFrom sep cs2 [].
Proof.
  intros F. revert cur. induction F as [|c cs E _ IH]; intros cur;
    cbn [JS.splitFrom app].
  - now rewrite Ascii.eqb_refl, app_nil_r.
  - rewrite E, IH. cbn [rev]. now rewrite <- app_assoc.
Qed.

(** Pieces without a comma, joined by commas and split again. *)
Lemma split_join (pieces : list string) :
  pieces <> [] ->
  Forall (fun s => Forall (fun c => Ascii.eqb c "," = false) (list_ascii_of_string s))
         pieces ->
  JS.split (join "," pieces) "," = pieces.
Proof.
  intros Hne F. unfold JS.split, join.
  induction F as [|piece rest Hp Hrest IH]; [congruence|].
  destruct rest as [|next rest'].
  - cbn [String.concat]. rewrite splitFrom_last by assumption.
    cbn [rev app]. now rewrite string_of_list_ascii_of_string.
  - change (String.concat "," (piece :: next :: rest'))
      with (piece ++ "," ++ String.concat "," (next :: rest'))%string.
    rewrite chars_app. cbn [append list_ascii_of_string].
    rewrite splitFrom_piece by assumption. cbn [rev app].
    rewrite string_of_list_ascii_of_string. f_equal. apply IH. discriminate.
Qed.

Lemma toString_no_comma (z : Z) :
  Forall (fun c => Ascii.eqb c "," = false) (list_ascii_of_string (JS.toString z)).
Proof.
  destruct (TextFacts.toString_chars z) as [d [c [r [_ [_ Es]]]]]. rewrite Es.
  assert (D : Forall (fun c => Ascii.eqb c "," = false) (uintChars d)).
  { eapply Forall_impl; [|apply TextFacts.uintChars_digits].
    intros a Ha. apply Ascii.eqb_neq. intros ->. discriminate Ha. }
  destruct (z <? 0); [constructor; [reflexivity | exact D] | exact D].
Qed.

(** The argument written for integer faces is read back as these faces. *)
Lemma diceOf_argOf (zs : list Z) :
  zs <> [] -> diceOf (argOf zs) = {| faces := map JS.ofZ zs |}.
Proof.
  intros Hne. unfold diceOf, argOf. f_equal.
  rewrite split_join.
  - rewrite map_map. apply map_ext. apply TextFacts.Number_toString.
  - destruct zs; [congruence | discriminate].
  - apply Forall_map, Forall_forall. intros z _. apply toString_no_comma.
Qed.

Lemma wellFormed_argOf (zs : list Z) : zs <> [] -> wellFormed (argOf zs) = true.
Proof.
  intros Hne. unfold wellFormed.
  change (map JS.Number (JS.split (argOf zs) ",")) with (faces (diceOf (argOf zs))).
  rewrite diceOf_argOf by assumption. cbn [faces].
  apply negb_true_iff. induction zs as [|z zs' IH]; [reflexivity|].
  cbn. destruct zs'; [reflexivity | apply IH; discriminate].
Qed.

(** [args.map] solved: every argument taken gives its die, in order; the
    first argument refused ends the call with its position. *)
Lemma mapArgs_wellFormed (args : list string) (index : Z) :
  forallb wellFormed args = true ->
  DiceParser.mapArgs args index = inr (map diceOf args).
Proof.
  revert index. induction args as [|arg rest IH]; intros index F; [reflexivity|].
  cbn [forallb] in F. apply andb_true_iff in F. destruct F as [Fa Fr].
  cbn [DiceParser.mapArgs map]. unfold DiceParser.parseArg.
  unfold wellFormed in Fa. apply negb_true_iff in Fa. rewrite Fa.
  now rewrite IH.
Qed.

Lemma mapArgs_first_refused (good : list string) (bad : string) (rest : list string)
      (index : Z) :
  forallb wellFormed good = true -> wellFormed bad = false ->
  DiceParser.mapArgs (good ++ bad :: rest) index
  = inl (JS.Error (DiceParser.invalidAt (index + len good))).
Proof.
  revert index. induction good as [|arg good' IH]; intros index F B.
  - cbn [app DiceParser.mapArgs]. unfold DiceParser.parseArg.
    unfold wellFormed in B. apply negb_false_iff in B. rewrite B.
    unfold len. cbn. now rewrite Z.add_0_r.
  - cbn [forallb] in F. apply andb_true_iff in F. destruct F as [Fa Fr].
    cbn [app DiceParser.mapArgs]. unfold DiceParser.parseArg.
    unfold wellFormed in Fa. apply negb_true_iff in Fa. rewrite Fa.
    rewrite IH by assumption. unfold len. cbn [List.length].
    do 3 f_equal. lia.
Qed.

Lemma mapArgs_inr (args : list string) (index : Z) (ds : list Dice) :
  DiceParser.mapArgs args index = inr ds ->
  forallb wellFormed args = true /\ ds = map diceOf args.
Proof.
  revert index ds. induction args as [|arg rest IH]; intros index ds E.
  - cbn in E. injection E as <-. now split.
  - cbn [DiceParser.mapArgs] in E. unfold DiceParser.parseArg in E.
    destruct (existsb JS.isNaN (map JS.Number (JS.split arg ","))) eqn:B;
      [discriminate|].
    destruct (DiceParser.mapArgs rest (index + 1)) as [e|ds'] eqn:R; [discriminate|].
    injection E as <-. apply IH in R. destruct R as [Fr ->].
    split; [|reflexivity]. cbn [forallb]. unfold wellFormed at 1. now rewrite B, Fr.
Qed.

Lemma split_nonempty (s : string) (sep : ascii) : JS.split s sep <> [].
Proof.
  unfold JS.split. generalize (@nil ascii) as cur.
  induction (list_ascii_of_string s) as [|c cs IH]; intros cur; cbn [JS.splitFrom].
  - discriminate.
  - destruct (Ascii.eqb c sep); [discriminate | apply IH].
Qed.

End ArgumentFacts.

(** A successful [parseDice]: there were at least three arguments, the dice
    are those of the arguments, one each and in order, and every die has at
    least one face and no face that is [NaN]. *)
Theorem parseDice_success_shape (args : list string) (ds : list Dice) :
  DiceParser.parseDice args = inr ds ->
  3 <= len args /\ ds = map diceOf args /\
  List.length ds = List.length args /\
  Forall (fun d => faces d <> [] /\ existsb JS.isNaN (faces d) = false) ds.
Proof.
  unfold DiceParser.parseDice. intros E.
  destruct (len args <? 3) eqn:L; [discriminate|]. apply Z.ltb_ge in L.
  apply ArgumentFacts.mapArgs_inr in E. destruct E as [F ->].
  split; [exact L|]. split; [reflexivity|]. split; [apply length_map|].
  apply Forall_map, Forall_forall. intros arg Harg.
  rewrite forallb_forall in F. specialize (F arg Harg).
  unfold wellFormed in F. apply negb_true_iff in F.
  split; [|exact F]. cbn [diceOf faces]. intros N.
  apply map_eq_nil in N. exact (ArgumentFacts.split_nonempty arg ","%char N).
Qed.

Lemma parseDice_success_shape_witness :
  3 <= len scenarioArgs /\ [ones; zeros; twos] = map diceOf scenarioArgs /\
  List.length [ones; zeros; twos] = List.length scenarioArgs /\
  Forall (fun d => faces d <> [] /\ existsb JS.isNaN (faces d) = false)
         [ones; zeros; twos].
Proof.
  apply (parseDice_success_shape scenarioArgs [ones; zeros; twos]).
  vm_compute. reflexivity.
Defined.

(** With fewer than three arguments, or with three or more of which one has
    a piece that [Number] reads as [NaN], the session ends on the error
    message at once: the message names the first such argument, counted from
    one; nothing is printed on the console and no random value is drawn. *)
Theorem main_refuses_malformed_arguments (H : list byte -> string -> string)
    (inputs : list string) (keys : list (list byte)) (ints : list Z) :
  (forall args,
     (List.length args < 3)%nat ->
     main H args inputs keys ints
     = (ConfigError DiceParser.tooFew, newGenerator keys ints)) /\
  (forall good bad rest,
     3 <= len (good ++ bad :: rest) ->
     forallb wellFormed good = true -> wellFormed bad = false ->
     main H (good ++ bad :: rest) inputs keys ints
     = (ConfigError
          ("Invalid dice configuration at argument " ++ JS.toString (len good + 1)
           ++ ": Only integers are allowed.")%string,
        newGenerator keys ints)).
Proof.
  split.
  - intros args L. unfold main. now rewrite parseDice_too_few.
  - intros good bad rest L F B. unfold main, DiceParser.parseDice.
    assert (E : (len (good ++ bad :: rest) <? 3) = false) by (apply Z.ltb_ge; lia).
    rewrite E, ArgumentFacts.mapArgs_first_refused by assumption.
    reflexivity.
Qed.

Lemma main_refuses_malformed_arguments_witness :
  main tagHmac ["1,2,3"; "4,5,6"] ["0"] [key1] [0]
  = (ConfigError DiceParser.tooFew, newGenerator [key1] [0]) /\
  main tagHmac ["1,2,3"; "4,5,6"; "7,x,9"; "oops"] ["0"] [key1] [0]
  = (ConfigError "Invalid dice configuration at argument 3: Only integers are allowed.",
     newGenerator [key1] [0]).
Proof.
  split.
  - apply (proj1 (main_refuses_malformed_arguments tagHmac ["0"] [key1] [0])
                 ["1,2,3"; "4,5,6"]).
    cbn. lia.
  - apply (proj2 (main_refuses_malformed_arguments tagHmac ["0"] [key1] [0])
                 ["1,2,3"; "4,5,6"] "7,x,9" ["oops"]); vm_compute; congruence.
Defined.

(** Three or more arguments, each the decimal integers of a die separated by
    commas (at least one per die, each a safe integer, so that [Number]
    reads it exactly), are taken: [parseDice] returns the dice with exactly
    these integers as faces, and the game starts, up to its first prompt,
    as soon as the random source has a key and a bit. *)
Theorem parseDice_reads_integer_dice (zss : list (list Z)) :
  3 <= len zss -> Forall (fun zs => zs <> []) zss ->
  Forall (Forall (fun z => isSafeInteger z = true)) zss ->
  DiceParser.parseDice (map argOf zss)
  = inr (map (fun zs => {| faces := map JS.ofZ zs |}) zss) /\
  forall H key keys n ints,
    0 <= n < 2 ->
    main H (map argOf zss) [] (key :: keys) (n :: ints)
    = (Waiting (AtFirstMove n (H key (JS.toString n))),
       {| secretKey := Some key; bytesFeed := keys; intFeed := ints;
          console := [Welcome; TypeHelp; LetsDetermine;
                      ISelected 1 (H key (JS.toString n))] |}).
Proof.
  intros L Hne _.
  assert (P : DiceParser.parseDice (map argOf zss)
              = inr (map (fun zs => {| faces := map JS.ofZ zs |}) zss)).
  { unfold DiceParser.parseDice.
    assert (E : (len (map argOf zss) <? 3) = false).
    { apply Z.ltb_ge. unfold len in *. now rewrite length_map. }
    rewrite E, ArgumentFacts.mapArgs_wellFormed.
    - f_equal. rewrite map_map. apply map_ext_in. intros zs Hin.
      apply ArgumentFacts.diceOf_argOf. rewrite Forall_forall in Hne. now apply Hne.
    - apply forallb_forall. intros arg Harg. apply in_map_iff in Harg.
      destruct Harg as [zs [<- Hin]]. apply ArgumentFacts.wellFormed_argOf.
      rewrite Forall_forall in Hne. now apply Hne. }
  split; [exact P|].
  intros H key keys n ints Hn. unfold main. rewrite P.
  unfold play, playStart, bind, log, newGenerator.
  cbn [secretKey bytesFeed intFeed console app].
  rewrite PromptFacts.determineFirstMove_draw by lia.
  reflexivity.
Qed.

Lemma parseDice_reads_integer_dice_witness :
  DiceParser.parseDice ["2,2,4,4,9,9"; "6,8,1,1,8,6"; "7,5,3,7,5,3"]
  = inr [dieA; dieB; dieC].
Proof.
  apply (parseDice_reads_integer_dice
           [[2; 2; 4; 4; 9; 9]; [6; 8; 1; 1; 8; 6]; [7; 5; 3; 7; 5; 3]]).
  - cbn. lia.
  - repeat constructor; discriminate.
  - repeat constructor.
Defined.

(* ================================================================= *)
(** ** More on the generator and on the matrix *)

Module LoopFacts.

Lemma gt_asym (a b : JS.number) : JS.gt a b = true -> JS.gt b a = false.
Proof.
  destruct a as [|[|]|p], b as [|[|]|q]; cbn; try congruence.
  unfold JS.Qltb. intros E. apply Z.ltb_lt in E. apply Z.ltb_ge. lia.
Qed.

Section Pairs.
Variable A : Type.
Variable Q : A * A -> bool.

Lemma count_row (x : A) (l2 : list A) :
  List.length (filter Q (map (pair x) l2))
  = List.length (filter (fun y => Q (x, y)) l2).
Proof.
  induction l2 as [|y l2 IH]; cbn; [reflexivity|].
  destruct (Q (x, y)); cbn; now rewrite IH.
Qed.

Lemma count_column (x : A) (l1 l2 : list A) :
  List.length (filter Q (list_prod l2 (x :: l1)))
  = (List.length (filter (fun y => Q (y, x)) l2)
     + List.length (filter Q (list_prod l2 l1)))%nat.
Proof.
  induction l2 as [|y l2 IH]; [reflexivity|].
  cbn [list_prod map app filter].
  destruct (Q (y, x)); cbn [List.length]; rewrite !filter_app, !length_app, IH; lia.
Qed.

End Pairs.

(** Counting the pairs of [l1 x l2] or the mirrored pairs of [l2 x l1] is
    the same. *)
Lemma count_mirror {A} (Q : A * A -> bool) (l1 l2 : list A) :
  List.length (filter Q (list_prod l1 l2))
  = List.length (filter (fun p => Q (snd p, fst p)) (list_prod l2 l1)).
Proof.
  induction l1 as [|x l1 IH].
  - cbn. induction l2 as [|y l2 IH2]; [reflexivity | exact IH2].
  - cbn [list_prod]. rewrite filter_app, length_app, count_row, IH.
    rewrite (count_column A (fun p => Q (snd p, fst p)) x l1 l2). reflexivity.
Qed.

(** Every pair is won by the first face, won by the second, or tied. *)
Lemma pairs_split (faces1 faces2 : list JS.number) :
  (pairsWon faces1 faces2 + pairsWon faces2 faces1 + pairsTied faces1 faces2
   = List.length faces1 * List.length faces2)%nat.
Proof.
  unfold pairsWon at 2.
  rewrite (count_mirror (fun p => JS.gt (fst p) (snd p)) faces2 faces1).
  unfold pairsWon, pairsTied. cbn [fst snd].
  rewrite <- (length_prod faces1 faces2).
  induction (list_prod faces1 faces2) as [|[a b] l IH]; [reflexivity|].
  cbn [filter fst snd List.length].
  destruct (JS.gt a b) eqn:Gab.
  - rewrite (gt_asym a b Gab). cbn [negb andb List.length]. lia.
  - destruct (JS.gt b a); cbn [negb andb List.length]; lia.
Qed.

End LoopFacts.

(** [generateUniformRandom] over the runtime's [crypto.randomInt], in full:
    for [max <= 0] or [max > 2^48 - 1] it throws what the primitive throws
    and nothing is consumed; otherwise, when it returns a number, that
    number is the one integer it took from the source, it lies in
    [0 <= n < max] (so the loop never goes round again), and the key, the
    source of keys and the console are as before.  The loop of l.57-59
    itself, over a source that could hand out anything, draws again on
    every integer not below [max] and returns the first one below it. *)
Theorem generateUniformRandom_draws_once (max : Z) (w : World) :
  match Checked.generateUniformRandom max w with
  | (Val n, w') =>
      0 < max <= randMax /\ 0 <= n < max /\ intFeed w = n :: intFeed w' /\
      secretKey w' = secretKey w /\ bytesFeed w' = bytesFeed w /\
      console w' = console w
  | (Throw e, w') => (max <= 0 \/ randMax < max) /\ w' = w
  | (Starved, w') =>
      0 < max <= randMax /\
      match intFeed w with [] => True | n :: _ => ~ 0 <= n < max end
  | (Exit _, _) => False
  end /\
  (forall again n rest,
     Forall (fun k => max <= k) again -> n < max ->
     generateUniformRandom max
       {| secretKey := secretKey w; bytesFeed := bytesFeed w;
          intFeed := again ++ n :: rest; console := console w |}
     = (Val n, {| secretKey := secretKey w; bytesFeed := bytesFeed w;
                  intFeed := rest; console := console w |})).
Proof.
  split.
  - unfold Checked.generateUniformRandom. apply CheckedFacts.uniformLoop_spec.
  - intros again n rest Ha Hn.
    now apply GeneratorFacts.generateUniformRandom_first_below.
Qed.

(** Two dice with at least one face each: the entry of the first against
    the second is the number of pairs the first wins over the number of all
    pairs, the entry of the second against the first is the number of pairs
    the second wins over the same number, and the pairs won by the first,
    the pairs won by the second and the tied pairs are all the pairs; both
    entries are numbers between 0 and 1. *)
Theorem calculateProbability_mirror (dice1 dice2 : Dice) :
  faces dice1 <> [] -> faces dice2 <> [] ->
  let total := len (faces dice1) * len (faces dice2) in
  let won1 := Z.of_nat (pairsWon (faces dice1) (faces dice2)) in
  let won2 := Z.of_nat (pairsWon (faces dice2) (faces dice1)) in
  ProbabilityCalculator.calculateProbability dice1 dice2 = JS.div won1 total /\
  ProbabilityCalculator.calculateProbability dice2 dice1 = JS.div won2 total /\
  won1 + won2 + Z.of_nat (pairsTied (faces dice1) (faces dice2)) = total /\
  0 < total /\
  exists p q,
    ProbabilityCalculator.calculateProbability dice1 dice2 = JS.Num p /\
    ProbabilityCalculator.calculateProbability dice2 dice1 = JS.Num q /\
    (0 <= p <= 1)%Q /\ (0 <= q <= 1)%Q.
Proof.
  intros N1 N2 total won1 won2.
  pose proof (LoopFacts.pairs_split (faces dice1) (faces dice2)) as S.
  assert (P1 : 0 < len (faces dice1))
    by (unfold len; destruct (faces dice1); cbn; [congruence | lia]).
  assert (P2 : 0 < len (faces dice2))
    by (unfold len; destruct (faces dice2); cbn; [congruence | lia]).
  assert (T : 0 < total) by (unfold total; lia).
  assert (Sum : won1 + won2 + Z.of_nat (pairsTied (faces dice1) (faces dice2)) = total).
  { unfold won1, won2, total, len. rewrite <- Nat2Z.inj_mul, <- S. lia. }
  assert (E1 : ProbabilityCalculator.calculateProbability dice1 dice2 = JS.div won1 total).
  { unfold ProbabilityCalculator.calculateProbability.
    now rewrite MatrixFacts.countWins_pairsWon. }
  assert (E2 : ProbabilityCalculator.calculateProbability dice2 dice1 = JS.div won2 total).
  { unfold ProbabilityCalculator.calculateProbability.
    rewrite MatrixFacts.countWins_pairsWon. unfold total.
    now rewrite (Z.mul_comm (len (faces dice2))). }
  split; [exact E1|]. split; [exact E2|]. split; [exact Sum|]. split; [exact T|].
  destruct (MatrixFacts.div_positive won1 total T) as [p [Ep Hp]].
  destruct (MatrixFacts.div_positive won2 total T) as [q [Eq Hq]].
  exists p, q. rewrite E1, E2. split; [exact Ep|]. split; [exact Eq|].
  assert (W1 : 0 <= won1) by (unfold won1; lia).
  assert (W2 : 0 <= won2) by (unfold won2; lia).
  assert (W3 : 0 <= Z.of_nat (pairsTied (faces dice1) (faces dice2))) by lia.
  assert (Hp' : (p == won1 # Z.to_pos total)%Q).
  { rewrite Hp, Qmake_Qdiv, Z2Pos.id by lia. reflexivity. }
  assert (Hq' : (q == won2 # Z.to_pos total)%Q).
  { rewrite Hq, Qmake_Qdiv, Z2Pos.id by lia. reflexivity. }
  split.
  - rewrite Hp'. unfold Qle. cbn [Qnum Qden]. rewrite Z2Pos.id by lia. split; lia.
  - rewrite Hq'. unfold Qle. cbn [Qnum Qden]. rewrite Z2Pos.id by lia. split; lia.
Qed.

Lemma calculateProbability_mirror_witness :
  ProbabilityCalculator.calculateProbability dieA dieB = JS.Num (5 # 9) /\
  ProbabilityCalculator.calculateProbability dieB dieA = JS.Num (4 # 9) /\
  Z.of_nat (pairsWon (faces dieA) (faces dieB))
  + Z.of_nat (pairsWon (faces dieB) (faces dieA))
  + Z.of_nat (pairsTied (faces dieA) (faces dieB))
  = len (faces dieA) * len (faces dieB).
Proof.
  pose proof (calculateProbability_mirror dieA dieB ltac:(discriminate)
                ltac:(discriminate)) as [_ [_ [S _]]].
  split; [reflexivity|]. split; [reflexivity | exact S].
Defined.

(* ================================================================= *)
(** ** Commitments across a session *)

Module SessionFacts.

Section Hash.
Variable H : list byte -> string -> string.

Lemma lands_bind {A B} (f : B -> option Pending) (m : M A) (k : A -> M B) :
  (forall a, lands H f (k a)) -> lands H f (bind m k).
Proof.
  intros Hk w b w' p E Fp. unfold bind in E.
  destruct (m w) as [[a| | |] w1]; try discriminate.
  exact (Hk a w1 b w' p E Fp).
Qed.

Lemma lands_ret {A} (f : A -> option Pending) (a : A) :
  (forall p, f a = Some p -> outstanding p = None) -> lands H f (ret a).
Proof.
  intros N w a' w' p E Fp. unfold ret in E. injection E as <- <-.
  unfold sound. now rewrite (N p Fp).
Qed.

Lemma lands_throw {A} (f : A -> option Pending) (e : JS.error) : lands H f (throw e).
Proof. intros w a w' p E. discriminate. Qed.

Lemma lands_processExit {A} (f : A -> option Pending) (c : Z) : lands H f (processExit c).
Proof. intros w a w' p E. discriminate. Qed.

(** The end of every stretch that commits: the value is drawn and hashed,
    the digest is printed, the prompt waits on both. *)
Lemma lands_commit {A} (f : A -> option Pending) (range top : Z)
      (mk : Commitment -> A) :
  (forall c p, f (mk c) = Some p -> outstanding p = Some (randomNumber c, hmac c)) ->
  lands H f (c <- generateRandom H range ;;
           log (ISelected top (hmac c)) ;;
           ret (mk c)).
Proof.
  intros Hmk w a w' p E Fp. unfold bind in E.
  destruct (generateRandom H range w) as [[c| | |] w1] eqn:G; try discriminate.
  unfold log, ret in E. injection E as <- <-.
  apply GeneratorFacts.generateRandom_inv in G.
  destruct G as [key [keys [_ [_ [Es [_ [Eh _]]]]]]].
  unfold sound. rewrite (Hmk c p Fp).
  exists key, top, (console w1). cbn [secretKey console]. auto.
Qed.

Lemma lands_commit_top {A} (f : A -> option Pending) (range : Z) (top : Z)
      (mk : Commitment -> A) (m : M A) :
  m = (c <- generateRandom H range ;; log (ISelected top (hmac c)) ;; ret (mk c)) ->
  (forall c p, f (mk c) = Some p -> outstanding p = Some (randomNumber c, hmac c)) ->
  lands H f m.
Proof. intros ->. apply lands_commit. Qed.

Lemma lands_determineFirstMove : lands H Some (determineFirstMove H).
Proof.
  unfold determineFirstMove. apply lands_bind. intros _.
  apply (lands_commit Some 2 1 (fun c => AtFirstMove (randomNumber c) (hmac c))).
  intros c p [= <-]. reflexivity.
Qed.

Lemma lands_again (b : bool) :
  lands H ofAnswer (log InvalidGuess ;; p <- determineFirstMove H ;; ret (inl p)).
Proof.
  apply lands_bind. intros _ w a w' p E Fp. unfold bind in E.
  destruct (determineFirstMove H w) as [[p0| | |] w1] eqn:D; try discriminate.
  unfold ret in E. injection E as <- <-. cbn in Fp. injection Fp as <-.
  exact (lands_determineFirstMove w p0 w1 p0 D eq_refl).
Qed.

End Hash.

(** One step of the walk through a stretch. *)
Ltac walk :=
  match goal with
  | |- lands _ _ (c <- generateRandom _ _ ;; log (ISelected _ (hmac c)) ;; ret _) =>
      eapply lands_commit_top;
      [ reflexivity | intros ? ? E; cbn in E; injection E as <-; reflexivity ]
  | |- lands _ _ (bind _ _) => apply lands_bind; intros ?
  | |- lands _ _ (ret _) =>
      apply lands_ret; intros ? E; cbn in E; first [discriminate | injection E as <-; reflexivity]
  | |- lands _ _ (throw _) => apply lands_throw
  | |- lands _ _ (processExit _) => apply lands_processExit
  | |- lands _ _ (diceAt _ _) => unfold diceAt
  | |- lands _ _ (if ?b then _ else _) => destruct b
  | |- lands _ _ (match ?x with _ => _ end) => destruct x
  end.

Section Stretches.
Variable H : list byte -> string -> string.
Variable g : Game.

Lemma lands_playStart : lands H ofControl (playStart H).
Proof.
  unfold playStart. do 2 (apply lands_bind; intros _).
  intros w a w' p E Fp. unfold bind in E.
  destruct (determineFirstMove H w) as [[p0| | |] w1] eqn:D; try discriminate.
  unfold ret in E. injection E as <- <-. cbn in Fp. injection Fp as <-.
  exact (lands_determineFirstMove H w p0 w1 p0 D eq_refl).
Qed.

Lemma lands_firstMove (randomNumber : Z) (userInput : string) :
  lands H ofAnswer (firstMoveAnswered H randomNumber userInput).
Proof.
  unfold firstMoveAnswered. cbv zeta.
  repeat first [apply (lands_again H true) | walk].
Qed.

Lemma lands_chooseDice (userGoesFirst : bool) (userInput : string) :
  lands H ofControl (chooseDiceAnswered H g userGoesFirst userInput).
Proof. unfold chooseDiceAnswered. cbv zeta. repeat walk. Qed.

Lemma lands_hostThrow (userGoesFirst : bool) (ui ci ct : Z) (userInput : string) :
  lands H ofControl (hostThrowAnswered H g userGoesFirst ui ci ct userInput).
Proof. unfold hostThrowAnswered. cbv zeta. repeat walk. Qed.

Lemma lands_playerThrow (userGoesFirst : bool) (ui : Z)
      (computerRoll : option JS.number) (ut : Z) (userInput : string) :
  lands H ofControl (playerThrowAnswered g userGoesFirst ui computerRoll ut userInput).
Proof. unfold playerThrowAnswered. cbv zeta. repeat walk. Qed.

Lemma lands_resume (p : Pending) (userInput : string) :
  lands H ofControl (resume H g p userInput).
Proof.
  destruct p as [rn d | b | b ui ci ct ch | b ui ci cr ut uh]; cbn [resume].
  - intros w a w' p E Fp. unfold bind in E.
    destruct (firstMoveAnswered H rn userInput w) as [[r| | |] w1] eqn:F;
      try discriminate.
    destruct r as [p0|b]; unfold ret in E; injection E as <- <-;
      cbn in Fp; injection Fp as <-.
    + exact (lands_firstMove rn userInput w (inl p0) w1 p0 F eq_refl).
    + exact I.
  - apply lands_chooseDice.
  - apply lands_hostThrow.
  - apply lands_playerThrow.
Qed.

(** The state is sound at every prompt a run passes. *)
Lemma run_sound (inputs : list string) (p0 : Pending) (w0 : World) (p : Pending)
      (w : World) :
  sound H p0 w0 -> run H g p0 inputs w0 = (Waiting p, w) -> sound H p w.
Proof.
  revert p0 w0. induction inputs as [|userInput rest IH]; intros p0 w0 S E;
    cbn [run] in E.
  - injection E as <- <-. exact S.
  - destruct (resume H g p0 userInput w0) as [[[p1|]| | |] w1] eqn:R; try discriminate.
    apply (IH p1 w1); [|exact E].
    exact (lands_resume p0 userInput w0 (Await p1) w1 p1 R eq_refl).
Qed.

Lemma run_app (l1 l2 : list string) (p0 : Pending) (w0 : World) :
  run H g p0 (l1 ++ l2) w0
  = match run H g p0 l1 w0 with
    | (Waiting p, w) => run H g p l2 w
    | other => other
    end.
Proof.
  revert p0 w0. induction l1 as [|userInput rest IH]; intros p0 w0; cbn [app run].
  - reflexivity.
  - destruct (resume H g p0 userInput w0) as [[[p1|]| | |] w1]; try reflexivity.
    apply IH.
Qed.

Lemma run_one (p : Pending) (userInput : string) (w : World) :
  snd (run H g p [userInput] w) = snd (resume H g p userInput w).
Proof.
  cbn [run]. now destruct (resume H g p userInput w) as [[[p1|]| | |] w1].
Qed.

End Stretches.

Section Reveals.
Variable v : Z.

Lemma shows_silent {A} (m : M A) : silent isReveal m -> shows v m.
Proof.
  intros S w. destruct (S w) as [ms [E Q]]. exists ms. split; [exact E|].
  intros x n k Hin R. exfalso.
  assert (existsb isReveal ms = true) as T.
  { apply existsb_exists. exists x. split; [exact Hin|]. unfold isReveal. now rewrite R. }
  congruence.
Qed.

Lemma shows_diceAt {A} (g : Game) (i : Z) (k : Dice -> M A) :
  (forall d, shows v (k d)) -> shows v (bind (diceAt g i) k).
Proof.
  intros Hk w. unfold bind, diceAt.
  destruct (at_ (dice g) i) as [d|]; [exact (Hk d w)|].
  exists []. cbn. split; [now rewrite app_nil_r | intros ? ? ? []].
Qed.

Lemma shows_reveal {A} (mk : string -> Msg) (rest : string -> M A) :
  (forall key, revealed (mk key) = Some (v, key)) ->
  (forall key, silent isReveal (rest key)) ->
  shows v (key <- getSecretKey ;; log (mk key) ;; rest key).
Proof.
  intros Hmk Hrest w.
  destruct (secretKey w) as [key|] eqn:K.
  - assert (E0 : (key <- getSecretKey ;; log (mk key) ;; rest key) w
                 = rest (JS.hex key) (snd (log (mk (JS.hex key)) w))).
    { unfold bind at 1, getSecretKey. rewrite K. reflexivity. }
    rewrite E0.
    destruct (Hrest (JS.hex key) (snd (log (mk (JS.hex key)) w))) as [ms [E Q]].
    cbn [log snd console] in E |- *.
    exists ([mk (JS.hex key)] ++ ms). split; [now rewrite E, app_assoc|].
    intros x n k Hin R. cbn in Hin. destruct Hin as [<-|Hin].
    + rewrite Hmk in R. injection R as <- <-. eauto.
    + exfalso. assert (existsb isReveal ms = true) as T.
      { apply existsb_exists. exists x. split; [exact Hin|].
        unfold isReveal. now rewrite R. }
      congruence.
  - assert (E0 : (key <- getSecretKey ;; log (mk key) ;; rest key) w
                 = (Throw (JS.TypeError "Cannot read properties of null (reading 'toString')"), w)).
    { unfold bind, getSecretKey. now rewrite K. }
    rewrite E0. exists []. cbn. split; [now rewrite app_nil_r | intros ? ? ? []].
Qed.

Lemma shows_then_pure {A B} (m : M A) (k : A -> M B) :
  shows v m -> (forall a w, snd (k a w) = w) -> shows v (bind m k).
Proof.
  intros Hm Hk w. destruct (Hm w) as [ms [E Q]]. exists ms. split; [|exact Q].
  unfold bind. destruct (m w) as [[a| | |] w1]; cbn [snd] in *; try exact E.
  now rewrite Hk.
Qed.

End Reveals.

(** One step of the search for the reveal of a stretch. *)
Ltac look :=
  match goal with
  | |- shows _ (if ?b then _ else _) => destruct b
  | |- shows _ (match ?x with _ => _ end) => destruct x
  | |- shows _ (bind getSecretKey _) =>
      apply shows_reveal; [intros ?; reflexivity | intros ?; repeat Silence.step]
  | |- shows _ (bind (diceAt _ _) _) => apply shows_diceAt; intros ?
  | |- shows _ _ => solve [apply shows_silent; repeat Silence.step]
  end.

Section Shown.
Variable H : list byte -> string -> string.
Variable g : Game.

Lemma shows_firstMove (randomNumber : Z) (userInput : string) :
  shows randomNumber (firstMoveAnswered H randomNumber userInput).
Proof.
  unfold firstMoveAnswered, determineFirstMove. cbv zeta. repeat look.
Qed.

Lemma shows_hostThrow (userGoesFirst : bool) (ui ci ct : Z) (userInput : string) :
  shows ct (hostThrowAnswered H g userGoesFirst ui ci ct userInput).
Proof. unfold hostThrowAnswered. cbv zeta. repeat look. Qed.

Lemma shows_playerThrow (userGoesFirst : bool) (ui : Z)
      (computerRoll : option JS.number) (ut : Z) (userInput : string) :
  shows ut (playerThrowAnswered g userGoesFirst ui computerRoll ut userInput).
Proof.
  unfold playerThrowAnswered. cbv zeta.
  repeat first
    [ match goal with
      | |- shows _ (bind getSecretKey _) =>
          apply shows_reveal;
          [ intros ?; reflexivity
          | intros ?; apply Silence.silent_same; intros ?;
            now rewrite Silence.tag_o_throws ]
      end
    | look ].
Qed.

Lemma silent_chooseDice (userGoesFirst : bool) (userInput : string) :
  silent isReveal (chooseDiceAnswered H g userGoesFirst userInput).
Proof. unfold chooseDiceAnswered. cbv zeta. repeat Silence.step. Qed.

(** What answering a prompt can reveal. *)
Lemma shows_resume (p : Pending) (userInput : string) :
  match outstanding p with
  | Some (value, _) => shows value (resume H g p userInput)
  | None => silent isReveal (resume H g p userInput)
  end.
Proof.
  destruct p as [rn d | b | b ui ci ct ch | b ui ci cr ut uh]; cbn [outstanding resume].
  - apply shows_then_pure; [apply shows_firstMove|]. now intros [p'|b] w.
  - apply silent_chooseDice.
  - apply shows_hostThrow.
  - apply shows_playerThrow.
Qed.

End Shown.

End SessionFacts.

(** At every prompt of every session the state is sound, and when the next
    line is given, a key revealed in answer to it is the key under which the
    digest printed last before the prompt is the keyed hash of the value
    revealed with it: every reveal verifies against the digest that was
    shown before the line was asked for. *)
Theorem every_reveal_verifies (H : list byte -> string -> string)
    (argv inputs : list string) (userInput : string) (keys : list (list byte))
    (ints : list Z) (p : Pending) (w : World) :
  main H argv inputs keys ints = (Waiting p, w) ->
  sound H p w /\
  exists ms,
    console (snd (main H argv (inputs ++ [userInput]) keys ints)) = console w ++ ms /\
    forall x n k,
      In x ms -> revealed x = Some (n, k) ->
      exists key top out,
        k = JS.hex key /\
        console w = out ++ [ISelected top (H key (JS.toString n))].
Proof.
  unfold main. destruct (DiceParser.parseDice argv) as [e|ds]; [discriminate|].
  unfold play.
  destruct (playStart H (newGenerator keys ints)) as [[[p0|]| | |] w0] eqn:P;
    try discriminate.
  intros E.
  assert (S0 : sound H p0 w0)
    by exact (SessionFacts.lands_playStart H _ _ _ _ P eq_refl).
  assert (S : sound H p w) by exact (SessionFacts.run_sound H _ inputs p0 w0 p w S0 E).
  split; [exact S|].
  rewrite SessionFacts.run_app, E, SessionFacts.run_one.
  pose proof (SessionFacts.shows_resume H {| dice := ds |} p userInput) as Sh.
  unfold sound in S. destruct (outstanding p) as [[value digest]|].
  - destruct (Sh w) as [ms [Ec Q]]. exists ms. split; [exact Ec|].
    intros x n k Hin R. destruct (Q x n k Hin R) as [-> [key [K ->]]].
    destruct S as [key' [top [out [K' [D C]]]]].
    rewrite K in K'. injection K' as <-. exists key, top, out.
    split; [reflexivity|]. now rewrite C, D.
  - destruct (Sh w) as [ms [Ec Q]]. exists ms. split; [exact Ec|].
    intros x n k Hin R. exfalso.
    assert (existsb isReveal ms = true) as T.
    { apply existsb_exists. exists x. split; [exact Hin|]. unfold isReveal. now rewrite R. }
    congruence.
Qed.

Lemma every_reveal_verifies_witness :
  exists ms,
    console (snd (main tagHmac scenarioArgs (["0"; "2"] ++ ["3"]) [key1; key2; key3]
                       [1; 0; 5; 2]))
    = console (snd (main tagHmac scenarioArgs ["0"; "2"] [key1; key2; key3] [1; 0; 5; 2]))
      ++ ms /\
    forall x n k,
      In x ms -> revealed x = Some (n, k) ->
      exists key top out,
        k = JS.hex key /\
        console (snd (main tagHmac scenarioArgs ["0"; "2"] [key1; key2; key3] [1; 0; 5; 2]))
        = out ++ [ISelected top (tagHmac key (JS.toString n))].
Proof.
  apply (every_reveal_verifies tagHmac scenarioArgs ["0"; "2"] "3" [key1; key2; key3]
           [1; 0; 5; 2] (AtHostThrow false 2 0 5 (tagHmac key2 "5"))).
  vm_compute. reflexivity.
Defined.

(* ================================================================= *)
(** ** The flag of the first move *)

Module FlagFacts.

Ltac split_cases :=
  repeat (match goal with
          | |- context [if ?x then _ else _] => destruct x
          | |- context [match ?x with _ => _ end] => destruct x
          end; cbn [fst snd reflagStep withFlag]);
  try reflexivity.

Section Flag.
Variable H : list byte -> string -> string.
Variable g : Game.

Lemma resume_reflag (b : bool) (p : Pending) (userInput : string) (w : World) :
  isFirstMove p = false ->
  resume H g (withFlag b p) userInput w
  = (reflagStep b (fst (resume H g p userInput w)), snd (resume H g p userInput w)).
Proof.
  destruct p as [| b0 | b0 ui ci ct ch | b0 ui ci cr ut uh]; [discriminate|..]; intros _;
    cbn [withFlag resume].
  - unfold chooseDiceAnswered, bind, log, ret, diceAt, throw. cbv zeta. split_cases.
  - unfold hostThrowAnswered, bind, log, ret, diceAt, throw, getSecretKey. cbv zeta.
    split_cases.
  - unfold playerThrowAnswered, bind, log, ret, diceAt, throw, getSecretKey. cbv zeta.
    split_cases.
Qed.

Lemma resume_stays (p : Pending) (userInput : string) (w : World) (p' : Pending)
      (w' : World) :
  isFirstMove p = false ->
  resume H g p userInput w = (Val (Await p'), w') -> isFirstMove p' = false.
Proof.
  destruct p as [| b0 | b0 ui ci ct ch | b0 ui ci cr ut uh]; [discriminate|..];
    intros _ E; cbn [resume] in E.
  - unfold chooseDiceAnswered, bind, log, ret, diceAt, throw in E. cbv zeta in E.
    repeat match type of E with
           | context [if ?x then _ else _] => destruct x
           | context [match ?x with _ => _ end] => destruct x
           end; try discriminate; injection E as <- <-; reflexivity.
  - unfold hostThrowAnswered, bind, log, ret, diceAt, throw, getSecretKey in E.
    cbv zeta in E.
    repeat match type of E with
           | context [if ?x then _ else _] => destruct x
           | context [match ?x with _ => _ end] => destruct x
           end; try discriminate; injection E as <- <-; reflexivity.
  - unfold playerThrowAnswered, bind, log, ret, diceAt, throw, getSecretKey in E.
    cbv zeta in E.
    repeat match type of E with
           | context [if ?x then _ else _] => destruct x
           | context [match ?x with _ => _ end] => destruct x
           end; try discriminate; injection E as <- <-; reflexivity.
Qed.

Lemma run_reflag (b : bool) (inputs : list string) (p : Pending) (w : World) :
  isFirstMove p = false ->
  run H g (withFlag b p) inputs w
  = (reflag b (fst (run H g p inputs w)), snd (run H g p inputs w)).
Proof.
  revert p w. induction inputs as [|userInput rest IH]; intros p w N; cbn [run].
  - reflexivity.
  - rewrite resume_reflag by assumption.
    destruct (resume H g p userInput w) as [[[p1|]| | |] w1] eqn:R;
      cbn [fst snd reflagStep reflag]; try reflexivity.
    apply IH. exact (resume_stays p userInput w p1 w1 N R).
Qed.

End Flag.
End FlagFacts.

(** Who won the first move changes nothing in the rounds: from the
    die-choice prompt on, a session prints the same lines, draws the same
    random values and ends the same way whether the flag [userGoesFirst] is
    true or false; only the flag carried along differs. *)
Theorem first_move_result_is_ignored (H : list byte -> string -> string) (g : Game)
    (inputs : list string) (w : World) (b b' : bool) :
  run H g (AtChooseDice b) inputs w
  = (reflag b (fst (run H g (AtChooseDice b') inputs w)),
     snd (run H g (AtChooseDice b') inputs w)).
Proof. exact (FlagFacts.run_reflag H g b inputs (AtChooseDice b') w eq_refl). Qed.

(** A guess the guards accept at the first-move prompt: the value and the
    key of the commitment are revealed, the user moves first exactly when the
    guess equals the committed value (the two are compared, not added), and
    the die-choice prompt follows; no random value is drawn. *)
Theorem firstMove_accepted (H : list byte -> string -> string) (g : Game)
    (randomNumber : Z) (digest userInput : string) (guess : Z) (key : list byte)
    (w : World) :
  isExit userInput = false -> JS.parseInt userInput = Some guess ->
  0 <= guess <= 1 -> secretKey w = Some key ->
  resume H g (AtFirstMove randomNumber digest) userInput w
  = (Val (Await (AtChooseDice (guess =? randomNumber))),
     printed w [MySelection randomNumber (JS.hex key);
                if guess =? randomNumber then YouGuessed else IMakeFirstMove]).
Proof.
  intros Ex Ep Hg Hk. destruct w as [sk keys ints out]. cbn [secretKey] in Hk. subst sk.
  cbn [resume]. unfold firstMoveAnswered. rewrite Ex, Ep.
  assert (G0 : (guess <? 0) = false) by (apply Z.ltb_ge; lia).
  assert (G1 : (guess >? 1) = false) by (rewrite Z.gtb_ltb; apply Z.ltb_ge; lia).
  rewrite G0, G1. cbn [orb].
  unfold bind, getSecretKey, log, ret, printed.
  cbn [secretKey bytesFeed intFeed console].
  destruct (guess =? randomNumber); cbn [secretKey bytesFeed intFeed console];
    now rewrite <- app_assoc.
Qed.

Lemma firstMove_accepted_witness :
  resume tagHmac scenario (AtFirstMove 1 (tagHmac key1 "1")) " 1"
    {| secretKey := Some key1; bytesFeed := []; intFeed := []; console := [] |}
  = (Val (Await (AtChooseDice true)),
     {| secretKey := Some key1; bytesFeed := []; intFeed := [];
        console := [MySelection 1 (JS.hex key1); YouGuessed] |}).
Proof.
  apply (firstMove_accepted tagHmac scenario 1 (tagHmac key1 "1") " 1" 1 key1);
    try reflexivity.
  lia.
Defined.

(** A die index the guards accept at the die-choice prompt, with a source
    that keeps to its ranges: the host's die is the index the source hands
    out (it may be the user's own die), both dice are printed, a value is
    committed for the host's throw and its digest printed, and the first
    modular-contribution prompt follows; the key is not printed. *)
Theorem chooseDice_accepted (H : list byte -> string -> string) (g : Game)
    (userGoesFirst : bool) (userInput : string) (userDiceIndex : Z)
    (userDice computerDice : Dice) (sk : option (list byte)) (key : list byte)
    (keys : list (list byte)) (computerDiceIndex computerThrow : Z) (ints : list Z)
    (out : list Msg) :
  isExit userInput = false -> String.eqb userInput "?" = false ->
  JS.parseInt userInput = Some userDiceIndex ->
  at_ (dice g) userDiceIndex = Some userDice ->
  at_ (dice g) computerDiceIndex = Some computerDice ->
  computerThrow < len (faces computerDice) ->
  resume H g (AtChooseDice userGoesFirst) userInput
    {| secretKey := sk; bytesFeed := key :: keys;
       intFeed := computerDiceIndex :: computerThrow :: ints; console := out |}
  = (Val (Await (AtHostThrow userGoesFirst userDiceIndex computerDiceIndex
                             computerThrow (H key (JS.toString computerThrow)))),
     {| secretKey := Some key; bytesFeed := keys; intFeed := ints;
        console := out ++ [YouChose (faces userDice); IChoose (faces computerDice);
                           TimeForMyThrow;
                           ISelected (len (faces computerDice) - 1)
                                     (H key (JS.toString computerThrow))] |}).
Proof.
  intros Ex Eq Ep Hu Hc Ht. cbn [resume]. unfold chooseDiceAnswered. rewrite Ex, Eq, Ep.
  assert (Bu : 0 <= userDiceIndex < len (dice g)).
  { unfold at_ in Hu. destruct (userDiceIndex <? 0) eqn:N; [discriminate|].
    apply Z.ltb_ge in N. split; [exact N|].
    assert (Z.to_nat userDiceIndex < List.length (dice g))%nat
      by (apply nth_error_Some; congruence).
    unfold len. lia. }
  assert (Bc : 0 <= computerDiceIndex < len (dice g)).
  { unfold at_ in Hc. destruct (computerDiceIndex <? 0) eqn:N; [discriminate|].
    apply Z.ltb_ge in N. split; [exact N|].
    assert (Z.to_nat computerDiceIndex < List.length (dice g))%nat
      by (apply nth_error_Some; congruence).
    unfold len. lia. }
  assert (G0 : (userDiceIndex <? 0) = false) by (apply Z.ltb_ge; lia).
  assert (G1 : (userDiceIndex >=? len (dice g)) = false)
    by (rewrite Z.geb_leb; apply Z.leb_gt; lia).
  rewrite G0, G1. cbn [orb]. unfold diceAt at 1. rewrite Hu.
  unfold bind at 1, ret at 1. unfold bind at 1, log at 1.
  cbn [secretKey bytesFeed intFeed console].
  unfold bind at 1.
  pose proof (GeneratorFacts.generateUniformRandom_first_below (len (dice g)) []
                computerDiceIndex (computerThrow :: ints) sk (key :: keys)
                (out ++ [YouChose (faces userDice)]) (Forall_nil _) (proj2 Bc)) as U.
  cbn [app] in U. rewrite U. unfold diceAt. rewrite Hc.
  unfold bind at 1, ret at 1. unfold bind at 1, log at 1.
  unfold bind at 1, log at 1. cbn [secretKey bytesFeed intFeed console].
  unfold bind at 1.
  pose proof (GeneratorFacts.generateRandom_first_below H (len (faces computerDice)) []
                computerThrow ints sk key keys
                (((out ++ [YouChose (faces userDice)]) ++ [IChoose (faces computerDice)])
                 ++ [TimeForMyThrow]) (Forall_nil _) Ht) as R.
  cbn [app] in R. rewrite R. unfold bind, log, ret.
  cbn [secretKey bytesFeed intFeed console hmac randomNumber].
  now rewrite <- !app_assoc.
Qed.

Lemma chooseDice_accepted_witness :
  resume tagHmac scenario (AtChooseDice false) "2"
    {| secretKey := Some key1; bytesFeed := [key2]; intFeed := [2; 5]; console := [] |}
  = (Val (Await (AtHostThrow false 2 2 5 (tagHmac key2 "5"))),
     {| secretKey := Some key2; bytesFeed := []; intFeed := [];
        console := [YouChose (faces twos); IChoose (faces twos); TimeForMyThrow;
                    ISelected 5 (tagHmac key2 "5")] |}).
Proof.
  apply (chooseDice_accepted tagHmac scenario false "2" 2 twos twos (Some key1) key2 []
           2 5 [] []); reflexivity.
Defined.

(** Any other line at the die-choice prompt (not an exit request, not a
    question mark, and read by [parseInt] as [NaN], as a negative number or
    as a number not below the number of dice): "Invalid choice" is printed
    and the same prompt is shown again; nothing is drawn, nothing else
    changes. *)
Theorem chooseDice_refused (H : list byte -> string -> string) (g : Game)
    (userGoesFirst : bool) (userInput : string) (w : World) :
  String.eqb userInput "?" = false ->
  invalidContribution userInput (len (dice g)) = true ->
  resume H g (AtChooseDice userGoesFirst) userInput w
  = (Val (Await (AtChooseDice userGoesFirst)), printed w [InvalidChoice]).
Proof.
  intros Eq Hbad. apply PromptFacts.invalidContribution_cases in Hbad.
  destruct Hbad as [Ex Hp]. cbn [resume]. unfold chooseDiceAnswered. rewrite Ex, Eq.
  destruct Hp as [Ep | [n [Ep Hn]]]; rewrite Ep; [reflexivity|].
  now rewrite Hn.
Qed.

Lemma chooseDice_refused_witness :
  resume tagHmac scenario (AtChooseDice true) "3"
    {| secretKey := Some key1; bytesFeed := [key2]; intFeed := [0; 5]; console := [] |}
  = (Val (Await (AtChooseDice true)),
     {| secretKey := Some key1; bytesFeed := [key2]; intFeed := [0; 5];
        console := [InvalidChoice] |}).
Proof.
  apply (chooseDice_refused tagHmac scenario true "3"
           {| secretKey := Some key1; bytesFeed := [key2]; intFeed := [0; 5];
              console := [] |}); reflexivity.
Defined.

(* ================================================================= *)
(** ** Menus and faces *)

Module MenuFacts.

Lemma toString_head (z : Z) :
  exists c r,
    list_ascii_of_string (JS.toString z) = c :: r /\
    (isDecimalDigit c = true \/ c = "-"%char).
Proof.
  destruct (TextFacts.toString_chars z) as [d [c [r [Ec [_ Es]]]]].
  pose proof (TextFacts.uintChars_digits d) as Hd. rewrite Ec in Hd.
  inversion Hd as [|? ? Hc _]; subst. rewrite Es, Ec.
  destruct (z <? 0); eauto.
Qed.

Lemma toString_not_char (z : Z) (x : ascii) :
  isDecimalDigit x = false -> x <> "-"%char ->
  String.eqb (JS.toString z) (String x "") = false.
Proof.
  intros Nd Nm. apply String.eqb_neq. intros E.
  destruct (toString_head z) as [c [r [Ec Hc]]].
  rewrite E in Ec. cbn in Ec. injection Ec as <- _.
  destruct Hc; congruence.
Qed.

Lemma toString_not_exit (z : Z) : isExit (JS.toString z) = false.
Proof.
  unfold isExit.
  rewrite (toString_not_char z "X"%char), (toString_not_char z "x"%char);
    [reflexivity | reflexivity | discriminate | reflexivity | discriminate].
Qed.

Lemma at_in_bounds {A} (a : list A) (i : Z) :
  0 <= i < len a -> exists x, at_ a i = Some x /\ In x a.
Proof.
  intros B. unfold at_.
  assert (N : (i <? 0) = false) by (apply Z.ltb_ge; lia). rewrite N.
  destruct (nth_error a (Z.to_nat i)) as [x|] eqn:E.
  - exists x. split; [reflexivity | eapply nth_error_In; eauto].
  - apply nth_error_None in E. unfold len in B. lia.
Qed.

End MenuFacts.

(** A number typed in decimal at a prompt is accepted exactly when it is one
    of the options the query lists: [0 .. range-1] at a modular-contribution
    prompt (and, with the number of dice as range, at the die-choice prompt),
    0 and 1 at the first-move prompt; it is never taken for an exit request
    or for the question mark. *)
Theorem listed_numbers_are_accepted (i : Z) :
  (forall range,
     invalidContribution (JS.toString i) range = negb ((0 <=? i) && (i <? range))) /\
  invalidGuess (JS.toString i) = negb ((0 <=? i) && (i <=? 1)) /\
  isExit (JS.toString i) = false /\
  String.eqb (JS.toString i) "?" = false.
Proof.
  split; [|split; [|split]].
  - intros range. unfold invalidContribution.
    rewrite MenuFacts.toString_not_exit, TextFacts.parseInt_toString. cbn [negb andb].
    rewrite Z.geb_leb.
    destruct (0 <=? i) eqn:A, (i <? range) eqn:B, (i <? 0) eqn:C, (range <=? i) eqn:D;
      rewrite ?Z.leb_le, ?Z.leb_gt, ?Z.ltb_lt, ?Z.ltb_ge in *; try reflexivity; lia.
  - unfold invalidGuess.
    rewrite MenuFacts.toString_not_exit, TextFacts.parseInt_toString. cbn [negb andb].
    rewrite Z.gtb_ltb.
    destruct (0 <=? i) eqn:A, (i <=? 1) eqn:B, (i <? 0) eqn:C, (1 <? i) eqn:D;
      rewrite ?Z.leb_le, ?Z.leb_gt, ?Z.ltb_lt, ?Z.ltb_ge in *; try reflexivity; lia.
  - apply MenuFacts.toString_not_exit.
  - apply MenuFacts.toString_not_char; [reflexivity | discriminate].
Qed.

(** A throw is always a face of the die: the index the modular sum gives
    for a committed value and a contribution of the range is within the
    faces, and so is the index [roll] draws from a source that keeps to the
    range. *)
Theorem throw_is_a_face (d : Dice) :
  (forall v c,
     0 <= v < len (faces d) -> 0 <= c < len (faces d) ->
     exists f, at_ (faces d) (modularSum v c (len (faces d))) = Some f /\ In f (faces d)) /\
  (forall n rest sk keys out,
     0 <= n < len (faces d) ->
     exists f,
       roll d {| secretKey := sk; bytesFeed := keys; intFeed := n :: rest; console := out |}
       = (Val (Some f),
          {| secretKey := sk; bytesFeed := keys; intFeed := rest; console := out |}) /\
       In f (faces d)).
Proof.
  split.
  - intros v c Hv Hc. apply MenuFacts.at_in_bounds.
    rewrite modularSum_cases by assumption.
    destruct (v + c <? len (faces d)) eqn:E; rewrite ?Z.ltb_lt, ?Z.ltb_ge in E; lia.
  - intros n rest sk keys out Hn.
    destruct (MenuFacts.at_in_bounds (faces d) n Hn) as [f [E Hin]].
    exists f. split; [|exact Hin].
    unfold roll, bind, randomInt, ret. cbn [intFeed secretKey bytesFeed console].
    now rewrite E.
Qed.

Lemma throw_is_a_face_witness :
  (exists f, at_ (faces dieA) (modularSum 5 3 (len (faces dieA))) = Some f
             /\ In f (faces dieA)) /\
  (exists f,
     roll dieA {| secretKey := None; bytesFeed := []; intFeed := [4; 1]; console := [] |}
     = (Val (Some f),
        {| secretKey := None; bytesFeed := []; intFeed := [1]; console := [] |}) /\
     In f (faces dieA)).
Proof.
  split.
  - apply (proj1 (throw_is_a_face dieA) 5 3); cbn; lia.
  - apply (proj2 (throw_is_a_face dieA) 4 [1] None [] []). cbn. lia.
Defined.
